(** * Kovri configuration: command line and config file resolution

    A shallow embedding of [src/app/util/Config.cpp] (namespace
    [i2p::util::config]): the option registry built by [ParseArgs], the
    two [bpo::store] passes into the global [var_map], [ParseConfigFile]
    and the help display.

    [ParseArgs] is written against Boost.Program_options.  The library
    operations it calls ([parse_command_line], [parse_config_file],
    [store], [notify], [options_description::find]) are embedded here as
    executable functions that follow the library's implementation, so that
    the program can be run on concrete command lines and files.

    Outline: the library (module [bpo]); the globals, the effects and the
    two functions of [Config.cpp]; the vocabulary in which results are
    read; lemmas on [store], on the parser and on [notify]; the shape of a
    run; the properties of the merge, of the help display, of errors, of
    the default port and of a second run; the program on concrete
    inputs. *)

From Stdlib Require Import ZArith List Bool Ascii String Lia.
From stdpp Require Import base option gmap strings list.

Local Open Scope string_scope.
Local Open Scope Z_scope.

(** * Boost.Program_options

    [namespace bpo = boost::program_options]: the part of the library that
    [Config.cpp] uses. *)

Module bpo.

(** ** Exceptions of the option library *)

Inductive syntax_kind :=
| empty_adjacent_parameter
| missing_parameter
| extra_parameter
| unrecognized_line.

Inductive validation_kind :=
| multiple_values_not_allowed
| at_least_one_value_required.

Inductive po_error :=
| unknown_option (name : string)
| ambiguous_option (alternatives : list string)
| invalid_command_line_syntax (kind : syntax_kind) (token : string)
| invalid_config_file_syntax (line : string) (kind : syntax_kind)
| multiple_occurrences (name : string)
| multiple_values (name : string)
| validation_error (kind : validation_kind) (name : string)
| invalid_option_value (name : string) (text : string)
| invalid_bool_value (name : string) (text : string)
| bad_any_cast.

(** A computation of the library either yields a value or throws. *)
Abbreviation exn A := (sum po_error A).
Abbreviation throw e := (inl e).
Abbreviation ok a := (inr a).

(** The two failure classes of the command line that the specification
    names. *)
Definition is_UnknownOption (e : po_error) : bool :=
  match e with unknown_option _ => true | _ => false end.

Definition is_TypeMismatch (e : po_error) : bool :=
  match e with
  | invalid_option_value _ _ | invalid_bool_value _ _ => true
  | _ => false
  end.

(** ** Strings *)

Definition is_empty (s : string) : bool :=
  match s with EmptyString => true | _ => false end.

(** [s.find(c)]: the text before and after the first [c]. *)
Fixpoint find_char (c : ascii) (s : string) : option (string * string) :=
  match s with
  | EmptyString => None
  | String a r =>
      if Ascii.eqb a c then Some (EmptyString, r)
      else match find_char c r with
           | Some (p, q) => Some (String a p, q)
           | None => None
           end
  end.

Definition contains_char (c : ascii) (s : string) : bool :=
  match find_char c s with Some _ => true | None => false end.

(** [long_name.find(option) == 0]. *)
Fixpoint starts_with (p s : string) : bool :=
  match p, s with
  | EmptyString, _ => true
  | String a p', String b s' => Ascii.eqb a b && starts_with p' s'
  | String _ _, EmptyString => false
  end.

Definition code (c : ascii) : Z := Z.of_N (N_of_ascii c).

(** The characters that [trim_ws] strips: space, tab, carriage return and
    line feed. *)
Definition is_ws (c : ascii) : bool :=
  (code c =? 32) || (code c =? 9) || (code c =? 13) || (code c =? 10).

Definition tolower (c : ascii) : ascii :=
  if (65 <=? code c) && (code c <=? 90)
  then ascii_of_N (Z.to_N (code c + 32)) else c.

Fixpoint map_string (f : ascii -> ascii) (s : string) : string :=
  match s with
  | EmptyString => EmptyString
  | String a r => String (f a) (map_string f r)
  end.

Fixpoint trim_left (s : string) : string :=
  match s with
  | String a r => if is_ws a then trim_left r else s
  | EmptyString => EmptyString
  end.

Fixpoint rev_string (acc s : string) : string :=
  match s with
  | EmptyString => acc
  | String a r => rev_string (String a acc) r
  end.

Definition trim_ws (s : string) : string :=
  rev_string "" (trim_left (rev_string "" (trim_left s))).

(** ** Values

    [boost::any] restricted to the three types the registry declares. *)

Inductive any :=
| any_empty
| any_bool (b : bool)
| any_int (z : Z)
| any_string (s : string).

Definition any_is_empty (a : any) : bool :=
  match a with any_empty => true | _ => false end.

Definition INT_MIN : Z := - 2 ^ 31.
Definition INT_MAX : Z := 2 ^ 31 - 1.

Definition is_digit (c : ascii) : bool := (48 <=? code c) && (code c <=? 57).

Fixpoint digits_value (acc : Z) (s : string) : option Z :=
  match s with
  | EmptyString => Some acc
  | String c r =>
      if is_digit c then digits_value (10 * acc + (code c - 48)) r else None
  end.

(** [boost::lexical_cast<int>]: an optional sign, then one or more decimal
    digits and nothing else; out of range is a failed cast. *)
Definition lexical_cast_int (s : string) : option Z :=
  let magnitude (sign : Z) (r : string) :=
    if is_empty r then None
    else match digits_value 0 r with
         | Some n =>
             let v := sign * n in
             if (INT_MIN <=? v) && (v <=? INT_MAX) then Some v else None
         | None => None
         end in
  match s with
  | String "-"%char r => magnitude (-1) r
  | String "+"%char r => magnitude 1 r
  | _ => magnitude 1 s
  end.

(** The implicit conversion of the [size_t] port into the [int] that
    [value<int>()->default_value] takes. *)
Definition int_of_size_t (n : Z) : Z :=
  let m := n mod 2 ^ 32 in
  if m <=? INT_MAX then m else m - 2 ^ 32.

(** ** Option descriptions *)

Inductive value_type := T_bool | T_int | T_string.

(** The two globals that [value<std::string>(&x)] stores into on
    [notify]. *)
Inductive store_target := to_kovri_config | to_tunnels_config.

(** [untyped_value] is what [("help,h", text)] gets; [typed_value] is
    [bpo::value<T>(store_to)->default_value(v)].  The registry sets no
    implicit value, no composing, multitoken, zero-tokens or required
    flag and no notifier on any typed value, so these are left out. *)
Inductive value_semantic :=
| untyped_value (zero_tokens : bool)
| typed_value (T : value_type) (m_default_value : any)
              (m_store_to : option store_target).

Definition min_tokens (s : value_semantic) : nat :=
  match s with
  | untyped_value z => if z then 0%nat else 1%nat
  | typed_value _ _ _ => 1%nat
  end.

Definition max_tokens (s : value_semantic) : nat :=
  match s with
  | untyped_value z => if z then 0%nat else 1%nat
  | typed_value _ _ _ => 1%nat
  end.

Definition is_composing (s : value_semantic) : bool := false.

(** [apply_default]: the default, when one was declared. *)
Definition apply_default (s : value_semantic) : option any :=
  match s with
  | untyped_value _ => None
  | typed_value _ d _ => if any_is_empty d then None else Some d
  end.

Definition get_single_string (name : string) (xs : list string)
    (allow_empty : bool) : exn string :=
  match xs with
  | [] => if allow_empty then ok ""
          else throw (validation_error at_least_one_value_required name)
  | [x] => ok x
  | _ => throw (validation_error multiple_values_not_allowed name)
  end.

(** [validate] for [bool], [int] and [std::string], after
    [check_first_occurrence]. *)
Definition validate (name : string) (T : value_type) (xs : list string)
    : exn any :=
  match T with
  | T_bool =>
      match get_single_string name xs true with
      | inl e => throw e
      | inr s =>
          let s := map_string tolower s in
          if is_empty s || String.eqb s "on" || String.eqb s "yes"
             || String.eqb s "1" || String.eqb s "true"
          then ok (any_bool true)
          else if String.eqb s "off" || String.eqb s "no"
                  || String.eqb s "0" || String.eqb s "false"
          then ok (any_bool false)
          else throw (invalid_bool_value name s)
      end
  | T_int =>
      match get_single_string name xs false with
      | inl e => throw e
      | inr s =>
          match lexical_cast_int s with
          | Some z => ok (any_int z)
          | None => throw (invalid_option_value name s)
          end
      end
  | T_string =>
      match get_single_string name xs false with
      | inl e => throw e
      | inr s => ok (any_string s)
      end
  end.

(** [value_semantic::parse(value_store, new_tokens)]: the new content of
    [value_store].  A store that already holds a value is a second
    occurrence of the option. *)
Definition parse (name : string) (s : value_semantic) (value_store : any)
    (new_tokens : list string) : exn any :=
  if negb (any_is_empty value_store) then throw (multiple_occurrences name)
  else match s with
       | untyped_value _ =>
           match new_tokens with
           | [] => ok (any_string "")
           | [x] => ok (any_string x)
           | _ => throw (multiple_values name)
           end
       | typed_value T _ _ => validate name T new_tokens
       end.

Record option_description := {
  m_long_name : string;
  m_short_name : string;      (* with its dash, [-h]; empty when none *)
  semantic : value_semantic;
  m_description : string
}.

(** [option_description::key]. *)
Definition key (d : option_description) (option : string) : string :=
  if negb (is_empty (m_long_name d)) then
    if contains_char "*" (m_long_name d) then option else m_long_name d
  else m_short_name d.

(** An [options_description]: caption, every option (those of added
    groups included, flagged in [belong_to_group]) and the groups. *)
#[local] Unset Elimination Schemes.
Inductive options_description :=
| Description (m_caption : string)
              (m_options : list (option_description * bool))
              (groups : list options_description).
#[local] Set Elimination Schemes.

Definition m_caption (d : options_description) : string :=
  match d with Description c _ _ => c end.

Definition m_options (d : options_description)
    : list (option_description * bool) :=
  match d with Description _ o _ => o end.

Definition groups (d : options_description) : list options_description :=
  match d with Description _ _ g => g end.

(** [desc.options()]. *)
Definition options (d : options_description) : list option_description :=
  map fst (m_options d).

(** [options_description::add(const options_description&)]. *)
Definition add (d g : options_description) : options_description :=
  Description (m_caption d)
              (m_options d ++ map (fun o => (o, true)) (options g))
              (groups d ++ [g]).

(** [add_options()(name, semantic, text)]; a name is [long] or
    [long,s]. *)
Definition add_option (d : options_description) (long : string)
    (short : string) (s : value_semantic) (text : string)
    : options_description :=
  Description (m_caption d)
              (m_options d ++
                 [({| m_long_name := long;
                      m_short_name :=
                        if is_empty short then "" else "-" +:+ short;
                      semantic := s;
                      m_description := text |}, false)])
              (groups d).

Inductive match_result := no_match | full_match | approximate_match.

(** [option_description::match], case sensitive as in the default
    style. *)
Definition match_option (d : option_description) (option : string)
    (approx : bool) : match_result :=
  let r :=
    if is_empty (m_long_name d) then no_match
    else
      let r0 := no_match in
      if String.eqb (m_long_name d) option then full_match
      else if approx && starts_with option (m_long_name d)
      then approximate_match
      else r0 in
  match r with
  | full_match => full_match
  | _ => if String.eqb (m_short_name d) option then full_match else r
  end.

Record find_state := {
  found : option option_description;
  had_full_match : bool;
  approximate_matches : list string;
  full_matches : list string
}.

Definition find_step (name : string) (approx : bool) (st : find_state)
    (d : option_description) : find_state :=
  match match_option d name approx with
  | no_match => st
  | full_match =>
      {| found := Some d; had_full_match := true;
         approximate_matches := approximate_matches st;
         full_matches := full_matches st ++ [key d name] |}
  | approximate_match =>
      {| found := if had_full_match st then found st else Some d;
         had_full_match := had_full_match st;
         approximate_matches := approximate_matches st ++ [key d name];
         full_matches := full_matches st |}
  end.

(** [options_description::find_nothrow]. *)
Definition find_nothrow (desc : options_description) (name : string)
    (approx : bool) : exn (option option_description) :=
  let st := fold_left (find_step name approx) (options desc)
              {| found := None; had_full_match := false;
                 approximate_matches := []; full_matches := [] |} in
  if (1 <? length (full_matches st))%nat
  then throw (ambiguous_option (full_matches st))
  else if (length (full_matches st) =? 0)%nat
          && (1 <? length (approximate_matches st))%nat
  then throw (ambiguous_option (approximate_matches st))
  else ok (found st).

(** [options_description::find]. *)
Definition find (desc : options_description) (name : string)
    (approx : bool) : exn option_description :=
  match find_nothrow desc name approx with
  | inl e => throw e
  | inr None => throw (unknown_option name)
  | inr (Some d) => ok d
  end.

(** ** The command line parser

    [parse_command_line(argc, argv, desc)] with the default style
    (long and short options, values adjacent or in the next token, sticky
    short flags, guessing of abbreviated long names), no positional
    description and unregistered options refused. *)

Record basic_option := {
  string_key : string;
  value : list string;
  original_tokens : list string;
  unregistered : bool
}.

Definition positional (tok : string) : basic_option :=
  {| string_key := ""; value := [tok]; original_tokens := [tok];
     unregistered := false |}.

(** [cmdline::parse_long_option] on the first token: [None] when the
    token is not of the form [--name] or [--name=value]. *)
Definition parse_long_option (tok : string) : exn (option basic_option) :=
  match tok with
  | String "-"%char (String "-"%char (String c r)) =>
      match find_char "=" (String c r) with
      | Some (name, adjacent) =>
          if is_empty adjacent
          then throw (invalid_command_line_syntax
                        empty_adjacent_parameter name)
          else ok (Some {| string_key := name; value := [adjacent];
                           original_tokens := [tok];
                           unregistered := false |})
      | None =>
          ok (Some {| string_key := String c r; value := [];
                      original_tokens := [tok]; unregistered := false |})
      end
  | _ => ok None
  end.

(** The loop of [cmdline::parse_short_option]: a short flag that takes no
    value lets the rest of the token be further short options. *)
Fixpoint short_loop (desc : options_description) (tok name adjacent : string)
    : exn (list basic_option) :=
  let last :=
    {| string_key := name;
       value := if is_empty adjacent then [] else [adjacent];
       original_tokens := [tok]; unregistered := false |} in
  match find_nothrow desc name false with
  | inl e => throw e
  | inr d =>
      match d, adjacent with
      | Some d', String c rest =>
          if (max_tokens (semantic d') =? 0)%nat then
            match short_loop desc tok (String "-" (String c "")) rest with
            | inl e => throw e
            | inr r =>
                ok ({| string_key := name; value := [];
                       original_tokens := []; unregistered := false |} :: r)
            end
          else ok [last]
      | _, _ => ok [last]
      end
  end.

(** [cmdline::parse_short_option]: the empty list when the token is not
    [-x...]. *)
Definition parse_short_option (desc : options_description) (tok : string)
    : exn (list basic_option) :=
  match tok with
  | String "-"%char (String c r) =>
      if Ascii.eqb c "-" then ok []
      else short_loop desc tok (String "-" (String c "")) r
  | _ => ok []
  end.

(** What the style parsers make of the front token: the options they
    produce and the tokens they leave. *)
Inductive style_result :=
| not_applicable
| parsed (next : list basic_option) (rest : list string).

Definition style_parsers (desc : options_description) (tok : string)
    (rest : list string) : exn style_result :=
  match parse_long_option tok with
  | inl e => throw e
  | inr (Some o) => ok (parsed [o] rest)
  | inr None =>
      match parse_short_option desc tok with
      | inl e => throw e
      | inr (o :: os) => ok (parsed (o :: os) rest)
      | inr [] =>
          (* parse_terminator *)
          if String.eqb tok "--" then ok (parsed (map positional rest) [])
          else ok not_applicable
      end
  end.

(** Whether a style parser turns the single token into an option, the
    test [finish_option] makes before it takes a token as a value. *)
Definition followed_option (desc : options_description) (tok : string)
    : exn bool :=
  match style_parsers desc tok [] with
  | inl e => throw e
  | inr (parsed (_ :: _) _) => ok true
  | inr _ => ok false
  end.

(** The loop of [finish_option] that moves [need] tokens from
    [other_tokens] to the option's values. *)
Fixpoint grab_tokens (desc : options_description) (need : nat)
    (opt : basic_option) (other_tokens : list string)
    : exn (basic_option * list string) :=
  match need, other_tokens with
  | S need', tok :: others =>
      match followed_option desc tok with
      | inl e => throw e
      | inr followed =>
          let refuse :=
            if followed then
              match find_nothrow desc tok true with
              | inl e => Some e
              | inr (Some _) =>
                  Some (invalid_command_line_syntax missing_parameter tok)
              | inr None => None
              end
            else None in
          match refuse with
          | Some e => throw e
          | None =>
              grab_tokens desc need'
                {| string_key := string_key opt;
                   value := (value opt ++ [tok])%list;
                   original_tokens := (original_tokens opt ++ [tok])%list;
                   unregistered := unregistered opt |}
                others
          end
      end
  | _, _ => ok (opt, other_tokens)
  end.

(** [cmdline::finish_option]. *)
Definition finish_option (desc : options_description) (opt : basic_option)
    (other_tokens : list string) : exn (basic_option * list string) :=
  if is_empty (string_key opt) then ok (opt, other_tokens)
  else
    let original_token :=
      match original_tokens opt with
      | t :: _ => t
      | [] => string_key opt
      end in
    match find_nothrow desc (string_key opt) true with
    | inl e => throw e
    | inr None => throw (unknown_option original_token)
    | inr (Some d) =>
        let opt :=
          {| string_key := key d (string_key opt); value := value opt;
             original_tokens := original_tokens opt;
             unregistered := unregistered opt |} in
        let min := min_tokens (semantic d) in
        let max := max_tokens (semantic d) in
        let present := (length (value opt) + length other_tokens)%nat in
        if (min <=? present)%nat then
          if negb (length (value opt) =? 0)%nat && (max =? 0)%nat
          then throw (invalid_command_line_syntax
                        extra_parameter original_token)
          else grab_tokens desc (min - length (value opt)) opt other_tokens
        else throw (invalid_command_line_syntax
                      missing_parameter original_token)
    end.

(** [finish_option] on every option of [next]: all but the last see no
    further tokens, the last sees the unparsed ones. *)
Fixpoint finish_options (desc : options_description)
    (next : list basic_option) (args : list string)
    : exn (list basic_option * list string) :=
  match next with
  | [] => ok ([], args)
  | [o] =>
      match finish_option desc o args with
      | inl e => throw e
      | inr (o', args') => ok ([o'], args')
      end
  | o :: os =>
      match finish_option desc o [] with
      | inl e => throw e
      | inr (o', _) =>
          match finish_options desc os args with
          | inl e => throw e
          | inr (os', args') => ok (o' :: os', args')
          end
      end
  end.

(** The main loop of [cmdline::run]; every round removes the front token,
    so [length args] rounds suffice. *)
Fixpoint run_loop (fuel : nat) (desc : options_description)
    (args : list string) : exn (list basic_option) :=
  match fuel, args with
  | S fuel', tok :: rest =>
      match style_parsers desc tok rest with
      | inl e => throw e
      | inr not_applicable =>
          match run_loop fuel' desc rest with
          | inl e => throw e
          | inr r => ok (positional tok :: r)
          end
      | inr (parsed next rest') =>
          match finish_options desc next rest' with
          | inl e => throw e
          | inr (next', args') =>
              match run_loop fuel' desc args' with
              | inl e => throw e
              | inr r => ok (next' ++ r)%list
              end
          end
      end
  | _, _ => ok []
  end.

(** [parse_command_line]: [argv[0]] is the program name.  The later
    passes of [cmdline::run] change nothing here: no option of the
    registry has [min_tokens < max_tokens], and without a positional
    description the unnamed options stay unnamed. *)
Definition parse_command_line (argv : list string)
    (desc : options_description) : exn (list basic_option) :=
  let args := tail argv in
  run_loop (length args) desc args.

(** ** The config file parser

    [parse_config_file(ifs, desc)]: the stream is a list of lines. *)

(** [allowed_option]: the long names of the registry.  None of them ends
    in [*], so there are no allowed prefixes, and every description has a
    long name, as [parse_config_file] demands. *)
Definition allowed_option (desc : options_description) (s : string) : bool :=
  existsb (fun d => String.eqb (m_long_name d) s) (options desc).

Definition last_char_is (c : ascii) (s : string) : bool :=
  match rev_string "" s with
  | String a _ => Ascii.eqb a c
  | EmptyString => false
  end.

(** The text between the brackets of a section line. *)
Definition section_name (s : string) : option string :=
  match s with
  | String "["%char r =>
      match rev_string "" r with
      | String "]"%char inner => Some (rev_string "" inner)
      | _ => None
      end
  | _ => None
  end.

(** [common_config_file_iterator::get], line after line: comments and
    blank lines are skipped, [[section]] sets the prefix of the names
    that follow, [name = value] is an option, which must be registered,
    and any other line is a syntax error. *)
Fixpoint config_file_options (desc : options_description)
    (m_prefix : string) (lines : list string) : exn (list basic_option) :=
  match lines with
  | [] => ok []
  | line :: lines' =>
      let s := match find_char "#" line with
               | Some (before, _) => before
               | None => line
               end in
      let s := trim_ws s in
      if is_empty s then config_file_options desc m_prefix lines'
      else
        match section_name s with
        | Some p =>
            let p := if last_char_is "." p then p else p +:+ "." in
            config_file_options desc p lines'
        | None =>
            match find_char "=" s with
            | Some (n, v) =>
                let name := m_prefix +:+ trim_ws n in
                let value := trim_ws v in
                if allowed_option desc name then
                  match config_file_options desc m_prefix lines' with
                  | inl e => throw e
                  | inr r =>
                      ok ({| string_key := name; value := [value];
                             original_tokens := [name; value];
                             unregistered := false |} :: r)
                  end
                else throw (unknown_option name)
            | None =>
                throw (invalid_config_file_syntax s unrecognized_line)
            end
        end
  end.

Definition parse_config_file (lines : list string)
    (desc : options_description) : exn (list basic_option) :=
  config_file_options desc "" lines.

(** ** The variables map *)

Record variable_value := {
  m_value : any;
  m_defaulted : bool;
  m_value_semantic : option value_semantic
}.

(** [variable_value()]. *)
Definition empty_value : variable_value :=
  {| m_value := any_empty; m_defaulted := false; m_value_semantic := None |}.

(** [variables_map]: the [std::map] of values and the names whose value
    is final.  No option of the registry is required, so [m_required]
    stays empty and is left out. *)
Record variables_map := {
  entries : gmap string variable_value;
  m_final : gset string
}.

Definition empty_map : variables_map := {| entries := ∅; m_final := ∅ |}.

(** [vm.count(name)] as a test. *)
Definition count (vm : variables_map) (name : string) : bool :=
  match entries vm !! name with Some _ => true | None => false end.

(** [vm[name]] of the const interface: an empty value when absent. *)
Definition get (vm : variables_map) (name : string) : variable_value :=
  match entries vm !! name with Some x => x | None => empty_value end.

(** The first loop of [store]: every named, registered option whose
    value is not final yet is parsed into the map, in place.  The map is
    returned as the loop leaves it, also when [parse] throws. *)
Fixpoint store_options (desc : options_description) (final : gset string)
    (opts : list basic_option) (m : gmap string variable_value)
    (new_final : gset string)
    : gmap string variable_value * exn (gset string) :=
  match opts with
  | [] => (m, ok new_final)
  | o :: opts' =>
      let option_name := string_key o in
      if is_empty option_name then store_options desc final opts' m new_final
      else if unregistered o then store_options desc final opts' m new_final
      else if bool_decide (option_name ∈ final)
      then store_options desc final opts' m new_final
      else
        let original_token :=
          match original_tokens o with
          | t :: _ => t
          | [] => option_name
          end in
        match find desc option_name false with
        | inl e => (m, throw e)
        | inr d =>
            (* variable_value& v = m[option_name] *)
            let v0 := match m !! option_name with
                      | Some x => x
                      | None => empty_value
                      end in
            let v1 := if m_defaulted v0 then empty_value else v0 in
            match parse original_token (semantic d) (m_value v1) (value o) with
            | inl e => (<[option_name := v1]> m, throw e)
            | inr a =>
                store_options desc final opts'
                  (<[option_name :=
                       {| m_value := a; m_defaulted := m_defaulted v1;
                          m_value_semantic := Some (semantic d) |}]> m)
                  (if is_composing (semantic d) then new_final
                   else {[option_name]} ∪ new_final)
            end
        end
  end.

(** The second loop of [store]: an option that has no entry gets its
    declared default, marked as defaulted. *)
Fixpoint store_defaults (all : list option_description)
    (m : gmap string variable_value) : gmap string variable_value :=
  match all with
  | [] => m
  | d :: all' =>
      let k := key d "" in
      if is_empty k then store_defaults all' m
      else
        match m !! k, apply_default (semantic d) with
        | None, Some def =>
            store_defaults all'
              (<[k := {| m_value := def; m_defaulted := true;
                         m_value_semantic := Some (semantic d) |}]> m)
        | _, _ => store_defaults all' m
        end
  end.

(** [store(parsed_options, variables_map&)]: the map after the call and
    the exception that ended it, if any. *)
Definition store (opts : list basic_option) (desc : options_description)
    (xm : variables_map) : variables_map * option po_error :=
  match store_options desc (m_final xm) opts (entries xm) ∅ with
  | (m, inl e) => ({| entries := m; m_final := m_final xm |}, Some e)
  | (m, inr new_final) =>
      ({| entries := store_defaults (options desc) m;
          m_final := m_final xm ∪ new_final |}, None)
  end.

End bpo.

Import bpo.

(** * Config.cpp *)

(** ** Program state and effects *)

(** The globals of [Config.cpp], and how often the random source has been
    drawn from. *)
Record globals := {
  kovri_config : string;
  tunnels_config : string;
  var_map : variables_map;
  rand_calls : nat
}.

(** The state at process start. *)
Definition initial_globals : globals :=
  {| kovri_config := ""; tunnels_config := ""; var_map := empty_map;
     rand_calls := 0 |}.

Definition set_var_map (g : globals) (vm : variables_map) : globals :=
  {| kovri_config := kovri_config g; tunnels_config := tunnels_config g;
     var_map := vm; rand_calls := rand_calls g |}.

Definition set_configs (g : globals) (cfg : string * string) : globals :=
  {| kovri_config := fst cfg; tunnels_config := snd cfg;
     var_map := var_map g; rand_calls := rand_calls g |}.

Definition drawn (g : globals) : globals :=
  {| kovri_config := kovri_config g; tunnels_config := tunnels_config g;
     var_map := var_map g; rand_calls := S (rand_calls g) |}.

(** What the program does to the outside, in order. *)
Inductive event :=
| ifstream_open (path : string) (good : bool)
| cout_text (s : string)
| cout_description (d : options_description).

(** How a call ends: it returns, or an exception leaves it. *)
Inductive outcome (A : Type) :=
| Returned (a : A)
| Threw (e : po_error).
Arguments Returned {A} a.
Arguments Threw {A} e.

(** A computation over the globals that may print, open files and
    throw. *)
Definition M (A : Type) : Type := globals -> outcome A * globals * list event.

#[export] Instance M_ret : MRet M := fun A a g => (Returned a, g, []).

#[export] Instance M_bind : MBind M := fun A B f m g =>
  match m g with
  | (Returned a, g1, t1) =>
      match f a g1 with
      | (r, g2, t2) => (r, g2, (t1 ++ t2)%list)
      end
  | (Threw e, g1, t1) => (Threw e, g1, t1)
  end.

Definition emit (e : event) : M unit := fun g => (Returned tt, g, [e]).

Definition raise {A} (e : po_error) : M A := fun g => (Threw e, g, []).

Definition lift {A} (x : exn A) : M A :=
  match x with inl e => raise e | inr a => mret a end.

Definition nl : string := String "010"%char "".

(** [std::cout << s], [std::cout << desc] and [std::endl]. *)
Definition cout (s : string) : M unit := emit (cout_text s).
Definition cout_desc (d : options_description) : M unit :=
  emit (cout_description d).
Definition endl : M unit := emit (cout_text nl).

(** [bpo::store(parsed, var_map)] on the global map. *)
Definition store_var_map (opts : list basic_option)
    (desc : options_description) : M unit :=
  fun g =>
    match store opts desc (var_map g) with
    | (vm, Some e) => (Threw e, set_var_map g vm, [])
    | (vm, None) => (Returned tt, set_var_map g vm, [])
    end.

(** [typed_value::notify] of one entry: a string option declared with
    [value<std::string>(&x)] is copied into [x].  An entry that holds no
    string, which only a [store] that threw leaves behind, copies
    nothing. *)
Definition notify_value (k : string) (x : variable_value)
    (cfg : string * string) : string * string :=
  match m_value_semantic x, m_value x with
  | Some (typed_value _ _ (Some to_kovri_config)), any_string s =>
      (s, snd cfg)
  | Some (typed_value _ _ (Some to_tunnels_config)), any_string s =>
      (fst cfg, s)
  | _, _ => cfg
  end.

(** [bpo::notify(var_map)]: every entry is notified.  Each of the two
    globals is the target of one option only, so the order of the entries
    does not show. *)
Definition notified (g : globals) : globals :=
  set_configs g (map_fold notify_value (kovri_config g, tunnels_config g)
                   (entries (var_map g))).

Definition notify : M unit := fun g => (Returned tt, notified g, []).

Definition get_var_map : M variables_map :=
  fun g => (Returned (var_map g), g, []).

Definition get_kovri_config : M string :=
  fun g => (Returned (kovri_config g), g, []).

(** [value.as<std::string>()]. *)
Definition as_string (x : variable_value) : M string :=
  match m_value x with
  | any_string s => mret s
  | _ => raise bad_any_cast
  end.

(** The files of the machine: what [std::ifstream ifs(path)] finds,
    [None] when the stream cannot be opened. *)
Definition filesystem := string -> option (list string).

(** [ParseConfigFile(config, config_options, var_map)]; the map passed by
    reference is the global one. *)
Definition ParseConfigFile (fs : filesystem) (config : string)
    (config_options : options_description) : M unit :=
  match fs config with
  | None =>
      emit (ifstream_open config false) ;;
      cout ("Could not open " +:+ config +:+ "!" +:+ nl)
  | Some lines =>
      emit (ifstream_open config true) ;;
      opts ← lift (parse_config_file lines config_options) ;
      store_var_map opts config_options ;;
      notify
  end.

(** ** The registry and [ParseArgs] *)

Definition ln (s : string) : string := s +:+ nl.

Definition new_description (caption : string) : options_description :=
  Description caption [] [].

Definition value_bool (d : bool) : value_semantic :=
  typed_value T_bool (any_bool d) None.
Definition value_int (d : Z) : value_semantic :=
  typed_value T_int (any_int d) None.
Definition value_string (d : string) : value_semantic :=
  typed_value T_string (any_string d) None.

Section Config.

(** The collaborators that are declared outside [Config.cpp]:
    [KOVRI_VERSION] of [core/Version.h],
    [i2p::util::filesystem::GetFullPath] of [Filesystem.h] and
    [i2p::crypto::RandInRange<size_t>] of [crypto/Rand.h], whose result
    depends on how many draws came before. *)
Variable KOVRI_VERSION : string.
Variable GetFullPath : string -> string.
Variable RandInRange : nat -> Z -> Z -> Z.

Definition rand_in_range (lo hi : Z) : M Z :=
  fun g =>
    (Returned (RandInRange (rand_calls g) lo hi), drawn g, []).

Definition help : options_description :=
  add_option
    (add_option (new_description "Help options")
       "help" "h" (untyped_value true)
       (ln "General usage:" +:+ nl +:+
        ln "$ ./kovri" +:+ nl +:+
        ln "A random port will be generated with each use." +:+
        ln "You can specify a port with the --port option" +:+
        ln "or you can set one in the config file instead." +:+ nl +:+
        ln "Reload configuration file:" +:+ nl +:+
        ln "$ pkill -HUP kovri" +:+ nl +:+
        ln "Read kovri.conf and tunnels.cfg for more options" +:+ nl))
    "help-with" "w" (typed_value T_string any_empty None)
    (ln "Help with a specific option." +:+ nl +:+
     ln "Available options:" +:+
     ln "==================" +:+ nl +:+
     ln "all     | basic | system" +:+
     ln "network | proxy | i2pcs" +:+
     ln "config" +:+ nl +:+
     ln "Examples" +:+
     ln "========" +:+ nl +:+
     ln "List all options:" +:+ nl +:+
     ln "$ ./kovri -w all" +:+ nl +:+
     ln "List only basic options:" +:+ nl +:+
     "$ ./kovri -w basic").

Definition basic (port : Z) : options_description :=
  add_option
    (add_option (new_description (nl +:+ "Basic"))
       "host" "" (value_string "127.0.0.1")
       (ln "The external IP (deprecated)." +:+
        "Default: external interface"))
    "port" "p" (value_int (int_of_size_t port))
    (ln "Port to listen on." +:+
     "Default: random (then saved to router.info)").

Definition system : options_description :=
  add_option
    (add_option
       (add_option (new_description (nl +:+ "System"))
          "log" "l" (value_bool false)
          (ln "Enable or disable logging to file" +:+
           ln "1 = enabled, 0 = disabled"))
       "daemon" "d" (value_bool false)
       (ln "Enable or disable daemon mode" +:+
        ln "1 = enabled, 0 = disabled"))
    "service" "s" (value_bool false)
    (ln "1 if using system folders, e.g.," +:+
     ln "(/var/run/kovri.pid, /var/log/kovri.log, /var/lib/kovri)").

Definition network : options_description :=
  add_option
    (add_option
       (add_option (new_description (nl +:+ "Network"))
          "v6" "6" (value_bool false)
          (ln "1 to enable IPv6" +:+
           ln "1 = enabled, 0 = disabled"))
       "floodfill" "f" (value_bool false)
       (ln "1 to enable router router as floodfill" +:+
        ln "1 = enabled, 0 = disabled"))
    "bandwidth" "b" (value_string "L")
    (ln "L if bandwidth is limited to 32Kbs/sec, O if not" +:+
     ln "Always O if floodfill, otherwise L by default").

Definition proxy : options_description :=
  add_option
    (add_option
       (add_option
          (add_option
             (add_option (new_description (nl +:+ "Proxy"))
                "httpproxyport" "" (value_int 4446)
                (ln "The HTTP Proxy port to listen on"))
             "httpproxyaddress" "" (value_string "127.0.0.1")
             (ln "The HTTP Proxy address to listen on"))
          "socksproxyport" "" (value_int 4447)
          (ln "The SOCKS Proxy port to listen on"))
       "socksproxyaddress" "" (value_string "127.0.0.1")
       (ln "The SOCKS Proxy address to listen on"))
    "proxykeys" "k" (value_string "")
    (ln "Optional keys file for proxy's local destination").

Definition i2pcs : options_description :=
  add_option
    (add_option
       (add_option (new_description (nl +:+ "I2P Control Service"))
          "i2pcontrolport" "" (value_int 0)
          (ln "Port of I2P control service (usually 7650)" +:+
           ln "I2PControl is disabled if not specified"))
       "i2pcontroladdress" "" (value_string "127.0.0.1")
       (ln "Address of I2P control service" +:+
        ln "Default: 127.0.0.1 (only used if I2PControl is enabled)"))
    "i2pcontrolpassword" "" (value_string "itoopie")
    (ln "I2P control service password").

Definition config : options_description :=
  add_option
    (add_option (new_description (nl +:+ "Configuration"))
       "config" "c"
       (typed_value T_string (any_string (GetFullPath "kovri.conf"))
          (Some to_kovri_config))
       ("Options specified on the command line take" +:+
        ln "precedence over those in the config file."))
    "tunnelscfg" "t"
    (typed_value T_string (any_string (GetFullPath "tunnels.cfg"))
       (Some to_tunnels_config))
    (ln "Tunnels Config file").

(** Default visible option. *)
Definition kovri : options_description :=
  add
    (new_description
       (ln ":----------------------------------------------------:" +:+
        ln "|              The Kovri I2P Router Project          |" +:+
        "|                    version " +:+ KOVRI_VERSION +:+
        ln "                   |" +:+
        ":----------------------------------------------------"))
    help.

(** Available config file options. *)
Definition config_options (port : Z) : options_description :=
  add (add (add (add (add (add (new_description "") (basic port)) system)
                   network) proxy) i2pcs) config.

(** Available cli options. *)
Definition cli_options (port : Z) : options_description :=
  add (add (add (add (add (add (add (new_description "") help) (basic port))
                        system) network) proxy) i2pcs) config.

Definition ParseArgs (fs : filesystem) (argv : list string) : M bool :=
  (* Random generated port if none is supplied via CLI or config *)
  port ← rand_in_range 9111 30777;
  (* Map and store cli options *)
  opts ← lift (parse_command_line argv (cli_options port));
  store_var_map opts (cli_options port);;
  notify;;
  (* Parse config after mapping cli *)
  kovri_config ← get_kovri_config;
  ParseConfigFile fs kovri_config (config_options port);;
  (* Display --help and --help-with *)
  var_map ← get_var_map;
  if count var_map "help" then
    cout_desc kovri;; endl;;
    mret false
  else if count var_map "help-with" then
    s ← as_string (get var_map "help-with");
    (if String.eqb s "all" then cout_desc (config_options port)
     else if String.eqb s "basic" then cout_desc (basic port)
     else if String.eqb s "system" then cout_desc system
     else if String.eqb s "network" then cout_desc network
     else if String.eqb s "proxy" then cout_desc proxy
     else if String.eqb s "i2pcs" then cout_desc i2pcs
     else if String.eqb s "config" then cout_desc config
     else cout ("Unknown option '" +:+ s +:+ "'" +:+ nl +:+
                "Try using --help");; endl);;
    mret false
  else mret true.

End Config.


(** ** Reading the result of a merge *)

(** Whether a parsed option is one that [store] takes as a value of the
    key [k]: named, registered, and named [k]. *)
Definition names (k : string) (o : basic_option) : bool :=
  negb (is_empty (string_key o)) && negb (unregistered o)
  && String.eqb (string_key o) k.

(** The option of a parsed source that supplies [k] explicitly. *)
Definition supplied (opts : list basic_option) (k : string)
    : option basic_option :=
  List.find (names k) opts.

(** The typed value that the tokens of an explicit option denote. *)
Definition typed_value_of (s : value_semantic) (tokens : list string)
    : option any :=
  match parse "" s any_empty tokens with
  | inr a => Some a
  | inl _ => None
  end.

Definition explicit_value (s : value_semantic) (a : any) : variable_value :=
  {| m_value := a; m_defaulted := false; m_value_semantic := Some s |}.

Definition defaulted_value (s : value_semantic) (a : any) : variable_value :=
  {| m_value := a; m_defaulted := true; m_value_semantic := Some s |}.

(** The entry that the defaults pass of [store] creates for [k]. *)
Fixpoint default_entry (all : list option_description) (k : string)
    : option variable_value :=
  match all with
  | [] => None
  | d :: all' =>
      if negb (is_empty (key d "")) && String.eqb (key d "") k then
        match apply_default (semantic d) with
        | Some def => Some (defaulted_value (semantic d) def)
        | None => default_entry all' k
        end
      else default_entry all' k
  end.

(** The entry that [store] makes of an explicit option. *)
Definition explicit_entry (desc : options_description) (o : basic_option)
    : option variable_value :=
  match find desc (string_key o) false with
  | inr d =>
      match typed_value_of (semantic d) (value o) with
      | Some a => Some (explicit_value (semantic d) a)
      | None => None
      end
  | inl _ => None
  end.

(** The value and provenance that an explicit option of a source gives
    to the key of [d], and those that its declared default gives. *)
Definition from_source (d : option_description) (o : basic_option)
    : option (any * bool) :=
  match typed_value_of (semantic d) (value o) with
  | Some a => Some (a, false)
  | None => None
  end.

Definition from_default (d : option_description) : option (any * bool) :=
  match apply_default (semantic d) with
  | Some a => Some (a, true)
  | None => None
  end.

(** The value and the provenance that a map resolves a key to: [true]
    marks a value that came from the declared default. *)
Definition resolved (vm : variables_map) (k : string) : option (any * bool) :=
  match entries vm !! k with
  | Some x => Some (m_value x, m_defaulted x)
  | None => None
  end.

(** The global that [notify] copies a value into, with the text copied. *)
Definition notify_target (x : variable_value)
    : option (store_target * string) :=
  match m_value_semantic x, m_value x with
  | Some (typed_value _ _ (Some t)), any_string s => Some (t, s)
  | _, _ => None
  end.

(** A parsed option carries a canonical key: none, or the key of a
    registered description. *)
Definition canonical (desc : options_description) (o : basic_option) : Prop :=
  string_key o = ""
  \/ exists d s, In d (options desc) /\ string_key o = key d s.

(** The options that printing a description shows: its own, then those
    of each group. *)
Fixpoint shown_options (d : options_description) : list option_description :=
  match d with
  | Description _ opts gs =>
      (map fst (List.filter (fun p => negb (snd p)) opts)
       ++ flat_map shown_options gs)%list
  end.

Section Reading.

Variable KOVRI_VERSION : string.
Variable GetFullPath : string -> string.

(** The part of [ParseArgs] that displays [--help] and [--help-with],
    over the map it reads. *)
Definition display (port : Z) (var_map : variables_map) : M bool :=
  if count var_map "help" then
    cout_desc (kovri KOVRI_VERSION);; endl;;
    mret false
  else if count var_map "help-with" then
    s ← as_string (get var_map "help-with");
    (if String.eqb s "all" then cout_desc (config_options GetFullPath port)
     else if String.eqb s "basic" then cout_desc (basic port)
     else if String.eqb s "system" then cout_desc system
     else if String.eqb s "network" then cout_desc network
     else if String.eqb s "proxy" then cout_desc proxy
     else if String.eqb s "i2pcs" then cout_desc i2pcs
     else if String.eqb s "config" then cout_desc (config GetFullPath)
     else cout ("Unknown option '" +:+ s +:+ "'" +:+ nl +:+
                "Try using --help");; endl);;
    mret false
  else mret true.

(** The path of the config file that a parsed command line selects. *)
Definition cli_path (opts : list basic_option) : string :=
  match supplied opts "config" with
  | Some o => hd "" (value o)
  | None => GetFullPath "kovri.conf"
  end.

(** The options that the config file selected by the command line
    supplies; none when it cannot be opened. *)
Definition file_options (fs : filesystem) (port : Z)
    (opts : list basic_option) : list basic_option :=
  match fs (cli_path opts) with
  | Some lines =>
      match parse_config_file lines (config_options GetFullPath port) with
      | inr l => l
      | inl _ => []
      end
  | None => []
  end.

(** The default that a registry declares for [port]. *)
Definition port_default (desc : options_description) : option Z :=
  match find desc "port" false with
  | inr d =>
      match apply_default (semantic d) with
      | Some (any_int p) => Some p
      | _ => None
      end
  | inl _ => None
  end.

End Reading.

(** Modelled from the spec: [i2p::crypto::RandInRange] of [crypto/Rand.h]
    is not part of [Config.cpp]; its contract is the collaborator
    interface [SecureRandomInRange(min, max) -> integer], every draw an
    integer of the inclusive range. *)
Definition RandInRange_contract (RandInRange : nat -> Z -> Z -> Z) : Prop :=
  forall (n : nat) (lo hi : Z), lo <= hi -> lo <= RandInRange n lo hi <= hi.

(** ** A concrete machine

    Collaborators, files and command lines on which the program is run in
    the examples below. *)

Definition example_version : string := "0.1.0-alpha".

Definition example_full_path (file : string) : string :=
  "/home/kovri/.kovri/" +:+ file.

(** A source that keeps the contract: it walks through the range. *)
Definition example_rand (n : nat) (lo hi : Z) : Z :=
  lo + Z.of_nat n mod (hi - lo + 1).

Definition no_files : filesystem := fun _ => None.

Definition example_files : filesystem :=
  fun path =>
    if String.eqb path "/etc/kovri.conf"
    then Some ["# kovri.conf"; "port = 1234"; "host = 10.0.0.1"; ""]
    else None.

Definition example_run (fs : filesystem) (argv : list string) (g : globals)
    : outcome bool * globals * list event :=
  ParseArgs example_version example_full_path example_rand fs argv g.

Definition example_cli : options_description :=
  cli_options example_full_path (example_rand 0 9111 30777).

Definition example_parse (argv : list string) : list basic_option :=
  match parse_command_line argv example_cli with
  | inr opts => opts
  | inl _ => []
  end.

Definition example_description (k : string) : option_description :=
  match find example_cli k false with
  | inr d => d
  | inl _ =>
      {| m_long_name := ""; m_short_name := "";
         semantic := untyped_value true; m_description := "" |}
  end.

Definition state_of (r : outcome bool * globals * list event) : globals :=
  snd (fst r).

Definition argv_none : list string := ["kovri"].
Definition argv_port_config : list string :=
  ["kovri"; "--port"; "1000"; "-c"; "/etc/kovri.conf"].
Definition argv_help_both : list string :=
  ["kovri"; "--help"; "--help-with"; "basic"].
Definition argv_help_with : list string := ["kovri"; "--help-with"; "network"].
Definition argv_help_config : list string :=
  ["kovri"; "--help"; "-c"; "/etc/kovri.conf"].
Definition argv_help : list string := ["kovri"; "--help"].
Definition argv_bogus : list string := ["kovri"; "--bogus"].
Definition argv_bad_port : list string := ["kovri"; "--port"; "notanumber"].
Definition argv_port_1000 : list string := ["kovri"; "--port"; "1000"].
Definition argv_port_2000 : list string := ["kovri"; "--port"; "2000"].

Definition run_none := example_run no_files argv_none initial_globals.
Definition run_port_config :=
  example_run example_files argv_port_config initial_globals.
Definition run_help_both := example_run no_files argv_help_both initial_globals.
Definition run_help_with := example_run no_files argv_help_with initial_globals.
Definition run_help_config :=
  example_run example_files argv_help_config initial_globals.
Definition run_help := example_run no_files argv_help initial_globals.
Definition run_port_1000 := example_run no_files argv_port_1000 initial_globals.

(** A second run, on the globals that [run_port_1000] left, and the same
    second run on globals whose map was emptied first. *)
Definition run_second :=
  example_run no_files argv_port_2000 (state_of run_port_1000).
Definition run_second_fresh :=
  example_run no_files argv_port_2000
    (set_var_map (state_of run_port_1000) empty_map).

Definition example_kovri_conf : string := "/home/kovri/.kovri/kovri.conf".

(** A state in which five numbers have been drawn and nothing is stored,
    and the run with the empty command line on it. *)
Definition sixth_start : globals :=
  {| kovri_config := ""; tunnels_config := ""; var_map := empty_map;
     rand_calls := 5 |}.

Definition run_sixth := example_run no_files argv_none sixth_start.

(** ** Further vocabulary *)

(** A value of the type that a description declares: what
    [as<bool>()], [as<int>()] and [as<std::string>()] can take out of the
    map.  The option without a value holds a string. *)
Definition value_fits (s : value_semantic) (a : any) : Prop :=
  match s, a with
  | untyped_value _, any_string _ => True
  | typed_value T_bool _ _, any_bool _ => True
  | typed_value T_int _ _, any_int z => INT_MIN <= z <= INT_MAX
  | typed_value T_string _ _, any_string _ => True
  | _, _ => False
  end.

(** A token that no style parser takes for an option: it does not start
    with a dash. *)
Definition plain (tok : string) : bool :=
  match tok with
  | String "-"%char _ => false
  | _ => true
  end.

(** The global that a store target names. *)
Definition global_of (t : store_target) (g : globals) : string :=
  match t with
  | to_kovri_config => kovri_config g
  | to_tunnels_config => tunnels_config g
  end.

(** An exact lookup of [name] matches [d] in full. *)
Definition matches_exactly (name : string) (d : option_description) : bool :=
  match match_option d name false with
  | full_match => true
  | _ => false
  end.

(** The names under which a description is found. *)
Definition names_of (d : option_description) : list string :=
  [m_long_name d; m_short_name d].

(** ** Further runs of the concrete machine *)

(** A config file whose [port] is no number. *)
Definition broken_files : filesystem :=
  fun path =>
    if String.eqb path "/etc/kovri.conf"
    then Some ["port = notanumber"]
    else None.

(** More command lines. *)
Definition argv_config : list string := ["kovri"; "-c"; "/etc/kovri.conf"].
Definition argv_positional : list string := ["kovri"; "start"; "now"].
Definition argv_daemon : list string := ["kovri"; "--daemon"].

Definition run_broken := example_run broken_files argv_config initial_globals.

(** Second runs with the empty command line, on the globals that
    [run_none] and [run_help] left. *)
Definition run_again := example_run no_files argv_none (state_of run_none).
Definition run_after_help :=
  example_run no_files argv_none (state_of run_help).

(** [ParseConfigFile] alone, on [/etc/kovri.conf]. *)
Definition file_pass (fs : filesystem) (g : globals)
    : outcome unit * globals * list event :=
  ParseConfigFile fs "/etc/kovri.conf"
    (config_options example_full_path (example_rand 0 9111 30777)) g.

(** ** Lemmas on [parse] *)

Lemma get_single_string_name n n' xs b s :
  get_single_string n xs b = ok s -> get_single_string n' xs b = ok s.
Proof.
  unfold get_single_string.
  destruct xs as [|x [|y xs]]; try destruct b; congruence.
Qed.

Lemma validate_name n n' T xs a :
  validate n T xs = ok a -> validate n' T xs = ok a.
Proof.
  unfold validate. destruct T.
  - destruct (get_single_string n xs true) as [e|s] eqn:E; [congruence|].
    rewrite (get_single_string_name _ n' _ _ _ E).
    repeat match goal with |- context [if ?c then _ else _] =>
             destruct c end; congruence.
  - destruct (get_single_string n xs false) as [e|s] eqn:E; [congruence|].
    rewrite (get_single_string_name _ n' _ _ _ E).
    destruct (lexical_cast_int s); congruence.
  - destruct (get_single_string n xs false) as [e|s] eqn:E; [congruence|].
    rewrite (get_single_string_name _ n' _ _ _ E). congruence.
Qed.

Lemma validate_nonempty n T xs a :
  validate n T xs = ok a -> any_is_empty a = false.
Proof.
  unfold validate. destruct T.
  - destruct (get_single_string n xs true); [congruence|].
    repeat match goal with |- context [if ?c then _ else _] =>
             destruct c end; intros [= <-]; reflexivity.
  - destruct (get_single_string n xs false); [congruence|].
    destruct (lexical_cast_int _); intros [= <-]; reflexivity.
  - destruct (get_single_string n xs false); intros [= <-]; reflexivity.
Qed.

(** A successful [parse] found the value store empty, filled it, and
    yields the value that [typed_value_of] computes. *)
Lemma parse_ok n s store tokens a :
  parse n s store tokens = ok a ->
  any_is_empty store = true /\ any_is_empty a = false
  /\ typed_value_of s tokens = Some a.
Proof.
  unfold typed_value_of, parse.
  destruct (any_is_empty store) eqn:E; simpl; [|congruence].
  destruct s as [z|T d t].
  - destruct tokens as [|x [|y l]]; intros [= <-]; auto.
  - intros H. rewrite (validate_name _ "" _ _ _ H).
    eauto using validate_nonempty.
Qed.

(** ** Lemmas on [store] *)

Section Store.

Variable desc : options_description.
Variable final : gset string.

Lemma names_key k o :
  names k o = true ->
  string_key o = k /\ is_empty k = false /\ unregistered o = false.
Proof.
  unfold names. intros H.
  apply andb_prop in H as [H H3]. apply andb_prop in H as [H1 H2].
  apply String.eqb_eq in H3. subst k.
  split; [reflexivity|]. split; [now destruct (is_empty _)|].
  now destruct (unregistered o).
Qed.

Lemma names_false k o :
  is_empty (string_key o) = false -> unregistered o = false ->
  names k o = false -> string_key o <> k.
Proof.
  unfold names. intros -> -> H Heq. simpl in H.
  apply String.eqb_neq in H. contradiction.
Qed.

(** The first loop leaves a key alone when its value is final or when no
    option names it, whether the loop ends normally or not. *)
Lemma store_options_keeps k opts :
  forall m nf m' r,
    store_options desc final opts m nf = (m', r) ->
    k ∈ final \/ (forall o, In o opts -> names k o = false) ->
    m' !! k = m !! k.
Proof.
  induction opts as [|o opts IH]; simpl; intros m nf m' r H Hk.
  - now inversion H.
  - assert (Hk' : k ∈ final \/ (forall o, In o opts -> names k o = false))
      by (destruct Hk as [?|Hk]; [left|right]; auto).
    destruct (is_empty (string_key o)) eqn:E1; [eauto|].
    destruct (unregistered o) eqn:E2; [eauto|].
    case_bool_decide as E3; [eauto|].
    assert (Hne : string_key o <> k).
    { destruct Hk as [Hk|Hk]; [congruence|].
      apply names_false; auto. }
    destruct (find desc (string_key o) false) as [e|d]; [now inversion H|].
    destruct (parse _ _ _ _) as [e|a].
    + inversion H; subst. now rewrite lookup_insert_ne.
    + erewrite IH by eauto. now rewrite lookup_insert_ne.
Qed.

(** Once a key holds an explicit value, a further option for it in the
    same call is a second occurrence, and the loop cannot end normally. *)
Lemma store_options_once k opts :
  forall m nf m' nf' x,
    store_options desc final opts m nf = (m', ok nf') ->
    k ∉ final -> m !! k = Some x ->
    m_defaulted x = false -> any_is_empty (m_value x) = false ->
    forall o, In o opts -> names k o = false.
Proof.
  induction opts as [|o opts IH]; simpl; intros m nf m' nf' x H Hk Hx Hd Hv o' Hin;
    [contradiction|].
  destruct (names k o) eqn:En.
  - exfalso. apply names_key in En as (Ek & E1 & E2).
    rewrite Ek, E1, E2 in H. rewrite bool_decide_eq_false_2 in H by assumption.
    destruct (find desc k false) as [e|d]; [congruence|].
    rewrite Hx, Hd in H. unfold parse in H. rewrite Hv in H. simpl in H.
    congruence.
  - destruct Hin as [<-|Hin]; [assumption|].
    destruct (is_empty (string_key o)) eqn:E1; [eauto|].
    destruct (unregistered o) eqn:E2; [eauto|].
    case_bool_decide as E3; [eauto|].
    pose proof (names_false _ _ E1 E2 En) as Hne.
    destruct (find desc (string_key o) false) as [e|d]; [congruence|].
    destruct (parse _ _ _ _) as [e|a]; [congruence|].
    eapply IH; eauto. now rewrite lookup_insert_ne.
Qed.

(** A key that is not final and that the source supplies ends up with the
    typed value of that option, marked as explicit. *)
Lemma store_options_supplied k opts :
  forall m nf m' nf' o,
    store_options desc final opts m nf = (m', ok nf') ->
    k ∉ final -> supplied opts k = Some o ->
    exists d a,
      find desc k false = ok d
      /\ typed_value_of (semantic d) (value o) = Some a
      /\ m' !! k = Some (explicit_value (semantic d) a).
Proof.
  unfold supplied.
  induction opts as [|o opts IH]; simpl; intros m nf m' nf' o' H Hk Hs;
    [discriminate|].
  destruct (names k o) eqn:En.
  - injection Hs as <-. apply names_key in En as (Ek & E1 & E2).
    rewrite Ek, E1, E2 in H. rewrite bool_decide_eq_false_2 in H by assumption.
    destruct (find desc k false) as [e|d]; [congruence|].
    destruct (parse _ _ _ _) as [e|a] eqn:Ep; [congruence|].
    apply parse_ok in Ep as (Hs0 & Ha & Ht).
    exists d, a. split; [reflexivity|]. split; [assumption|].
    set (v0 := match m !! k with Some x => x | None => empty_value end) in *.
    assert (Hd : m_defaulted (if m_defaulted v0 then empty_value else v0) = false)
      by (destruct (m_defaulted v0) eqn:E; auto).
    rewrite Hd in H.
    erewrite store_options_keeps; [apply lookup_insert_eq| exact H |].
    right.
    eapply store_options_once with (x := explicit_value (semantic d) a);
      [exact H | assumption | apply lookup_insert_eq | reflexivity
      | assumption].
  - destruct (is_empty (string_key o)) eqn:E1; [eauto|].
    destruct (unregistered o) eqn:E2; [eauto|].
    case_bool_decide as E3; [eauto|].
    destruct (find desc (string_key o) false) as [e|d]; [congruence|].
    destruct (parse _ _ _ _) as [e|a]; [congruence|].
    eauto.
Qed.

Lemma supplied_none k opts :
  supplied opts k = None -> forall o, In o opts -> names k o = false.
Proof.
  unfold supplied. intros H o Hin.
  destruct (names k o) eqn:E; [|reflexivity].
  pose proof (List.find_none _ _ H o Hin). congruence.
Qed.

(** The names that the loop makes final are those it stored. *)
Lemma store_options_new_final k opts :
  forall m nf m' nf',
    store_options desc final opts m nf = (m', ok nf') ->
    k ∈ nf' <-> (k ∈ nf) \/ ((k ∉ final) /\ is_Some (supplied opts k)).
Proof.
  unfold supplied.
  induction opts as [|o opts IH]; simpl; intros m nf m' nf' H.
  - inversion H; subst. split; [tauto|].
    intros [?|[_ [? ?]]]; [assumption|discriminate].
  - assert (Hskip : k ∈ final \/ names k o = false ->
              ((k ∈ nf) \/ (k ∉ final) /\
                 is_Some (if names k o then Some o
                          else List.find (names k) opts)) <->
              ((k ∈ nf) \/ (k ∉ final) /\
                 is_Some (List.find (names k) opts))).
    { intros [Hf| ->]; [|reflexivity]. tauto. }
    assert (Hn : forall (E1 : is_empty (string_key o) = true \/
                              unregistered o = true \/ string_key o ∈ final),
               k ∈ final \/ names k o = false).
    { intros E. destruct (names k o) eqn:En; [|auto].
      apply names_key in En as (Ek & E1 & E2). subst k.
      destruct E as [E|[E|E]]; [congruence|congruence|auto]. }
    destruct (is_empty (string_key o)) eqn:E1;
      [rewrite Hskip by auto; eauto|].
    destruct (unregistered o) eqn:E2; [rewrite Hskip by auto; eauto|].
    case_bool_decide as E3; [rewrite Hskip by auto; eauto|].
    destruct (find desc (string_key o) false) as [e|d]; [congruence|].
    destruct (parse _ _ _ _) as [e|a]; [congruence|].
    simpl in H. apply IH in H. rewrite H. clear H IH Hskip Hn.
    destruct (names k o) eqn:En.
    + apply names_key in En as (Ek & _ & _). subst k.
      split; [intros _; right; split; eauto|]. intros _. left.
      apply elem_of_union. left. now apply elem_of_singleton.
    + pose proof (names_false _ _ E1 E2 En).
      rewrite elem_of_union, elem_of_singleton. split; intros H'; [|tauto].
      destruct H' as [[?|?]|?]; [congruence|tauto|tauto].
Qed.

End Store.

(** The defaults pass fills exactly the keys that have no entry. *)
Lemma store_defaults_lookup k all :
  forall m,
    store_defaults all m !! k =
    match m !! k with
    | Some x => Some x
    | None => default_entry all k
    end.
Proof.
  induction all as [|d all IH]; simpl; intros m.
  - now destruct (m !! k).
  - destruct (is_empty (key d "")) eqn:E; simpl; [apply IH|].
    destruct (String.eqb_spec (key d "") k) as [->|Hne].
    + destruct (m !! k) eqn:Em; [rewrite IH, Em; reflexivity|].
      destruct (apply_default (semantic d)); rewrite IH.
      * now rewrite lookup_insert_eq.
      * now rewrite Em.
    + destruct (m !! key d "") eqn:Em; [apply IH|].
      destruct (apply_default (semantic d)); rewrite IH; [|reflexivity].
      now rewrite lookup_insert_ne.
Qed.

(** What a call of [store] that ends normally leaves under each key. *)
Lemma store_lookup opts desc xm vm' k :
  store opts desc xm = (vm', None) ->
  entries vm' !! k =
    match (if bool_decide (k ∈ m_final xm) then None else supplied opts k) with
    | Some o => explicit_entry desc o
    | None =>
        match entries xm !! k with
        | Some x => Some x
        | None => default_entry (options desc) k
        end
    end.
Proof.
  unfold store.
  destruct (store_options _ _ _ _ _) as [m [e|nf]] eqn:E; [discriminate|].
  intros [= <-]. simpl. rewrite store_defaults_lookup.
  case_bool_decide as Hf.
  - erewrite store_options_keeps by eauto. reflexivity.
  - destruct (supplied opts k) as [o|] eqn:Es.
    + destruct (store_options_supplied _ _ _ _ _ _ _ _ _ E Hf Es)
        as (d & a & Hd & Ha & Hm).
      rewrite Hm. unfold explicit_entry.
      assert (Hk : string_key o = k).
      { unfold supplied in Es. apply List.find_some in Es as [_ Hn].
        now apply names_key in Hn. }
      now rewrite Hk, Hd, Ha.
    + erewrite store_options_keeps by eauto using supplied_none.
      reflexivity.
Qed.

(** An explicit option that [store] took has an entry. *)
Lemma store_explicit opts desc xm vm' k o :
  store opts desc xm = (vm', None) ->
  k ∉ m_final xm -> supplied opts k = Some o ->
  exists d a, find desc k false = ok d
              /\ typed_value_of (semantic d) (value o) = Some a
              /\ explicit_entry desc o = Some (explicit_value (semantic d) a).
Proof.
  unfold store.
  destruct (store_options _ _ _ _ _) as [m [e|nf]] eqn:E; [discriminate|].
  intros _ Hf Es.
  destruct (store_options_supplied _ _ _ _ _ _ _ _ _ E Hf Es)
    as (d & a & Hd & Ha & Hm).
  exists d, a. split; [assumption|]. split; [assumption|].
  unfold explicit_entry.
  assert (Hk : string_key o = k).
  { unfold supplied in Es. apply List.find_some in Es as [_ Hn].
    now apply names_key in Hn. }
  now rewrite Hk, Hd, Ha.
Qed.

(** The final names after [store]: those before, and those it stored. *)
Lemma store_final opts desc xm vm' k :
  store opts desc xm = (vm', None) ->
  k ∈ m_final vm' <-> (k ∈ m_final xm) \/ is_Some (supplied opts k).
Proof.
  unfold store.
  destruct (store_options _ _ _ _ _) as [m [e|nf]] eqn:E; [discriminate|].
  intros [= <-]. simpl.
  rewrite elem_of_union, (store_options_new_final _ _ _ _ _ _ _ _ E).
  pose proof (not_elem_of_empty (C := gset string) k).
  destruct (decide (k ∈ m_final xm)); tauto.
Qed.

(** [store] leaves a final value alone, however the call ends. *)
Lemma store_keeps_final opts desc xm vm' err k x :
  store opts desc xm = (vm', err) ->
  k ∈ m_final xm -> entries xm !! k = Some x ->
  entries vm' !! k = Some x /\ k ∈ m_final vm'.
Proof.
  unfold store.
  destruct (store_options _ _ _ _ _) as [m [e|nf]] eqn:E;
    intros [= <- <-] Hf Hx; simpl.
  - split; [|assumption]. erewrite store_options_keeps by eauto. assumption.
  - split; [|apply elem_of_union; auto]. rewrite store_defaults_lookup.
    erewrite store_options_keeps by eauto. now rewrite Hx.
Qed.

(** ** Lemmas on the command line parser *)

Section Cmdline.

Variable desc : options_description.

Lemma grab_tokens_spec need :
  forall opt toks o' rest,
    grab_tokens desc need opt toks = ok (o', rest) ->
    (length rest <= length toks)%nat /\ string_key o' = string_key opt.
Proof.
  induction need as [|need IH]; simpl; intros opt toks o' rest H.
  - injection H as <- <-. auto.
  - destruct toks as [|tok toks]; [injection H as <- <-; auto|].
    destruct (followed_option desc tok) as [e|f]; [discriminate|].
    destruct (if f then _ else _); [discriminate|].
    apply IH in H as [H1 H2]. simpl in *. split; [lia|assumption].
Qed.

Lemma fold_found name approx d l :
  forall st,
    found (fold_left (find_step name approx) l st) = Some d ->
    In d l \/ found st = Some d.
Proof.
  induction l as [|a l IH]; simpl; intros st H; [auto|].
  apply IH in H as [H|H]; [auto|].
  unfold find_step in H.
  destruct (match_option a name approx); simpl in H; auto.
  - injection H as <-. auto.
  - destruct (had_full_match st); [auto|]. injection H as <-. auto.
Qed.

Lemma find_nothrow_in name approx d :
  find_nothrow desc name approx = ok (Some d) -> In d (options desc).
Proof.
  unfold find_nothrow. intros H.
  repeat match type of H with (if ?c then _ else _) = _ =>
           destruct c; [discriminate|] end.
  injection H as H. apply fold_found in H as [H|H]; [assumption|discriminate].
Qed.

Lemma finish_option_spec o toks o' rest :
  finish_option desc o toks = ok (o', rest) ->
  (length rest <= length toks)%nat /\ canonical desc o'.
Proof.
  unfold finish_option, canonical.
  destruct (is_empty (string_key o)) eqn:E.
  - intros [= <- <-]. split; [lia|]. left. now destruct (string_key o).
  - destruct (find_nothrow desc (string_key o) true) as [e|[d|]] eqn:Ef;
      try discriminate.
    destruct (_ <=? _)%nat; [|discriminate].
    destruct (_ && _); [discriminate|].
    intros H. apply grab_tokens_spec in H as [H1 H2]. simpl in H2.
    split; [assumption|]. right. exists d, (string_key o).
    eauto using find_nothrow_in.
Qed.

Lemma finish_options_cons o o2 next toks :
  finish_options desc (o :: o2 :: next) toks =
  match finish_option desc o [] with
  | inl e => throw e
  | inr (o', _) =>
      match finish_options desc (o2 :: next) toks with
      | inl e => throw e
      | inr (os', args') => ok (o' :: os', args')
      end
  end.
Proof. reflexivity. Qed.

Lemma finish_options_spec next :
  forall toks next' rest,
    finish_options desc next toks = ok (next', rest) ->
    (length rest <= length toks)%nat /\ Forall (canonical desc) next'.
Proof.
  induction next as [|o next IH]; intros toks next' rest H.
  - injection H as <- <-. auto.
  - destruct next as [|o2 next].
    + simpl in H.
      destruct (finish_option desc o toks) as [e|[o' r]] eqn:E; [discriminate|].
      injection H as <- <-. apply finish_option_spec in E as [? ?]. auto.
    + rewrite finish_options_cons in H.
      destruct (finish_option desc o []) as [e|[o' r]] eqn:E; [discriminate|].
      destruct (finish_options desc (o2 :: next) toks) as [e|[os r']] eqn:E2;
        [discriminate|].
      injection H as <- <-. apply finish_option_spec in E as [_ ?].
      apply IH in E2 as [? ?]. auto.
Qed.

Lemma style_parsers_rest tok rest next rest' :
  style_parsers desc tok rest = ok (parsed next rest') ->
  (length rest' <= length rest)%nat.
Proof.
  unfold style_parsers.
  destruct (parse_long_option tok) as [e|[o|]]; try discriminate.
  - intros [= _ <-]. lia.
  - destruct (parse_short_option desc tok) as [e|[|o os]]; try discriminate.
    + destruct (String.eqb tok "--"); [|discriminate].
      intros [= _ <-]. simpl. lia.
    + intros [= _ <-]. lia.
Qed.

(** The loop never runs out of rounds: any bound above the number of
    tokens gives the same result. *)
Lemma run_loop_fuel n :
  forall m args,
    (length args <= n)%nat -> (length args <= m)%nat ->
    run_loop n desc args = run_loop m desc args.
Proof.
  induction n as [|n IH]; intros m args Hn Hm.
  - destruct args; [|simpl in Hn; lia]. now destruct m.
  - destruct args as [|tok rest]; [now destruct m|].
    destruct m as [|m]; [simpl in Hm; lia|].
    simpl in *.
    destruct (style_parsers desc tok rest) as [e|[|next rest']] eqn:Es;
      [reflexivity| |].
    + rewrite (IH m rest) by lia. reflexivity.
    + apply style_parsers_rest in Es.
      destruct (finish_options desc next rest') as [e|[next' args']] eqn:Ef;
        [reflexivity|].
      apply finish_options_spec in Ef as [Hl _].
      rewrite (IH m args') by lia. reflexivity.
Qed.

Lemma run_loop_canonical n :
  forall args r,
    run_loop n desc args = ok r -> Forall (canonical desc) r.
Proof.
  induction n as [|n IH]; intros args r H; simpl in H.
  - injection H as <-. constructor.
  - destruct args as [|tok rest]; [injection H as <-; constructor|].
    destruct (style_parsers desc tok rest) as [e|[|next rest']];
      [discriminate| |].
    + destruct (run_loop n desc rest) as [e|r0] eqn:Er; [discriminate|].
      injection H as <-. constructor; [now left|eauto].
    + destruct (finish_options desc next rest') as [e|[next' args']] eqn:Ef;
        [discriminate|].
      destruct (run_loop n desc args') as [e|r0] eqn:Er; [discriminate|].
      injection H as <-. apply finish_options_spec in Ef as [_ Hc].
      apply Forall_app. eauto.
Qed.

(** Every option that [parse_command_line] returns is unnamed or carries
    the key of a registered description. *)
Lemma parse_command_line_canonical argv opts :
  parse_command_line argv desc = ok opts -> Forall (canonical desc) opts.
Proof. apply run_loop_canonical. Qed.

End Cmdline.

(** ** Lemmas on [notify] *)

Lemma notify_value_target k x cfg :
  notify_value k x cfg =
  match notify_target x with
  | Some (to_kovri_config, s) => (s, snd cfg)
  | Some (to_tunnels_config, s) => (fst cfg, s)
  | None => cfg
  end.
Proof.
  unfold notify_value, notify_target.
  destruct (m_value_semantic x) as [[z|T d [[|]|]]|], (m_value x); reflexivity.
Qed.

(** When [config] is the one entry that is copied into [kovri_config],
    the global holds that entry's text after [notify]. *)
Lemma notified_kovri_config g :
  (forall k x s, entries (var_map g) !! k = Some x ->
                 notify_target x = Some (to_kovri_config, s) ->
                 k = "config") ->
  kovri_config (notified g) =
  match entries (var_map g) !! "config" with
  | Some x =>
      match notify_target x with
      | Some (to_kovri_config, s) => s
      | _ => kovri_config g
      end
  | None => kovri_config g
  end.
Proof.
  unfold notified, set_configs. cbn [kovri_config].
  set (b := (kovri_config g, tunnels_config g)).
  change (kovri_config g) with (fst b). clearbody b.
  generalize (entries (var_map g)).
  apply (map_fold_weak_ind
    (fun r (m : gmap string variable_value) =>
       (forall k x s, m !! k = Some x ->
                      notify_target x = Some (to_kovri_config, s) ->
                      k = "config") ->
       fst r =
       match m !! "config" with
       | Some x =>
           match notify_target x with
           | Some (to_kovri_config, s) => s
           | _ => fst b
           end
       | None => fst b
       end)).
  - intros _. now rewrite lookup_empty.
  - intros i x m r Hi IH Hu.
    assert (Hm : forall k x s, m !! k = Some x ->
                   notify_target x = Some (to_kovri_config, s) ->
                   k = "config").
    { intros k y s Hk. apply Hu. rewrite lookup_insert_ne; [assumption|].
      intros ->. congruence. }
    specialize (IH Hm). rewrite notify_value_target.
    destruct (decide (i = "config")) as [->|Hne].
    + rewrite lookup_insert_eq. rewrite Hi in IH.
      destruct (notify_target x) as [[[|] s]|]; simpl; auto.
    + rewrite lookup_insert_ne by assumption.
      destruct (notify_target x) as [[[|] s]|] eqn:Et; simpl; auto.
      exfalso. apply Hne. eapply Hu; [apply lookup_insert_eq|eassumption].
Qed.

(** ** The shape of a run of [ParseArgs] *)

Section Runs.

Variable KOVRI_VERSION : string.
Variable GetFullPath : string -> string.
Variable RandInRange : nat -> Z -> Z -> Z.

Abbreviation parse_args := (ParseArgs KOVRI_VERSION GetFullPath RandInRange).
Abbreviation cli port := (cli_options GetFullPath port).
Abbreviation cfg port := (config_options GetFullPath port).
Abbreviation drawn_port g := (RandInRange (rand_calls g) 9111 30777).

Lemma ParseArgs_unfold fs argv g :
  parse_args fs argv g =
  let port := drawn_port g in
  match parse_command_line argv (cli port) with
  | inl e => (Threw e, drawn g, [])
  | inr opts =>
      match store opts (cli port) (var_map g) with
      | (vm, Some e) => (Threw e, set_var_map (drawn g) vm, [])
      | (vm, None) =>
          let g1 := notified (set_var_map (drawn g) vm) in
          match ParseConfigFile fs (kovri_config g1) (cfg port) g1 with
          | (Threw e, g2, t) => (Threw e, g2, t)
          | (Returned _, g2, t) =>
              match display KOVRI_VERSION GetFullPath port (var_map g2) g2 with
              | (r, g3, t') => (r, g3, (t ++ t')%list)
              end
          end
      end
  end.
Proof.
  unfold ParseArgs, display, mbind, M_bind, rand_in_range, lift,
    store_var_map, notify, get_kovri_config, get_var_map.
  cbn [drawn rand_calls var_map].
  destruct (parse_command_line _ _) as [e|opts]; [reflexivity|].
  cbn [mret M_ret app].
  destruct (store _ _ _) as [vm [e|]]; [reflexivity|].
  cbn [app].
  destruct (ParseConfigFile _ _ _ _) as [[[[]|e] g2] t]; [|reflexivity].
  match goal with
  | |- context [?f g2] =>
      match f with
      | (if count _ _ then _ else _) => destruct (f g2) as [[r g3] t']
      end
  end.
  reflexivity.
Qed.

(** The display part changes no global. *)
Lemma display_state port vm g r g' t :
  display KOVRI_VERSION GetFullPath port vm g = (r, g', t) -> g' = g.
Proof.
  unfold display, mbind, M_bind, as_string, cout_desc, cout, endl, emit,
    raise, mret, M_ret.
  destruct (count vm "help"); [now intros [= _ <- _]|].
  destruct (count vm "help-with"); [|now intros [= _ <- _]].
  destruct (m_value (get vm "help-with")); try (now intros [= _ <- _]).
  repeat match goal with |- context [if ?c then _ else _] => destruct c end;
    now intros [= _ <- _].
Qed.

(** *** The registry *)

Ltac registry_cases Hin :=
  cbv -[int_of_size_t] in Hin;
  repeat (destruct Hin as [<-|Hin]); [..|contradiction].

(** The command line registry is [help], [help-with] and then the options
    of the config file registry. *)
Lemma cli_options_split port :
  exists dh dw,
    options (cli port) = dh :: dw :: options (cfg port)
    /\ m_long_name dh = "help" /\ semantic dh = untyped_value true
    /\ m_long_name dw = "help-with"
    /\ semantic dw = typed_value T_string any_empty None.
Proof. do 2 eexists. split; [reflexivity|]. repeat split. Qed.

(** Every description of the registry is found under its long name, which
    is also its key, and gets its declared default. *)
Lemma registry_entry port d :
  In d (options (cli port)) ->
  find (cli port) (m_long_name d) false = ok d
  /\ (forall s, key d s = m_long_name d)
  /\ is_empty (m_long_name d) = false
  /\ default_entry (options (cli port)) (m_long_name d) =
      match apply_default (semantic d) with
      | Some a => Some (defaulted_value (semantic d) a)
      | None => None
      end.
Proof.
  intros Hin. registry_cases Hin; repeat split.
Qed.

Lemma registry_config_entry port d :
  In d (options (cli port)) ->
  (m_long_name d = "help" \/ m_long_name d = "help-with"
   \/ find (cfg port) (m_long_name d) false = ok d)
  /\ (forall T a, semantic d = typed_value T a (Some to_kovri_config) ->
        m_long_name d = "config"
        /\ T = T_string /\ a = any_string (GetFullPath "kovri.conf")).
Proof.
  intros Hin. registry_cases Hin;
    (split; [auto | intros T a; try discriminate]).
  intros [= <- <-]. auto.
Qed.

Lemma find_config port :
  exists d,
    find (cli port) "config" false = ok d
    /\ semantic d = typed_value T_string (any_string (GetFullPath "kovri.conf"))
                      (Some to_kovri_config).
Proof. eexists. split; reflexivity. Qed.

Lemma config_options_no_help port :
  find (cfg port) "help" false = throw (unknown_option "help")
  /\ find (cfg port) "help-with" false = throw (unknown_option "help-with").
Proof. split; reflexivity. Qed.

Lemma default_entry_cli port k :
  default_entry (options (cli port)) k = default_entry (options (cfg port)) k.
Proof.
  destruct (cli_options_split port) as (dh & dw & -> & Hh & Hsh & Hw & Hsw).
  generalize (options (cfg port)). intros l.
  cbn [default_entry]. rewrite Hsh, Hsw. cbn [apply_default any_is_empty].
  destruct (_ && _); destruct (_ && _); reflexivity.
Qed.

Lemma default_entry_in all k x :
  default_entry all k = Some x ->
  exists d a, In d all /\ key d "" = k /\ x = defaulted_value (semantic d) a.
Proof.
  induction all as [|d all IH]; simpl; [discriminate|].
  intros H.
  assert (Hrec : default_entry all k = Some x ->
                 exists d0 a, (d = d0 \/ In d0 all) /\ key d0 "" = k
                              /\ x = defaulted_value (semantic d0) a).
  { intros H'. destruct (IH H') as (d0 & a & ? & ? & ?). eauto 6. }
  destruct (negb (is_empty (key d ""))); simpl in H; [|auto].
  destruct (String.eqb_spec (key d "") k); [|auto].
  destruct (apply_default (semantic d)) as [a|]; [|auto].
  injection H as <-. eauto 6.
Qed.

Lemma ParseConfigFile_run fs path desc g :
  ParseConfigFile fs path desc g =
  match fs path with
  | None =>
      (Returned tt, g,
       [ifstream_open path false;
        cout_text ("Could not open " +:+ path +:+ "!" +:+ nl)])
  | Some lines =>
      match parse_config_file lines desc with
      | inl e => (Threw e, g, [ifstream_open path true])
      | inr opts =>
          match store opts desc (var_map g) with
          | (vm, Some e) =>
              (Threw e, set_var_map g vm, [ifstream_open path true])
          | (vm, None) =>
              (Returned tt, notified (set_var_map g vm),
               [ifstream_open path true])
          end
      end
  end.
Proof.
  unfold ParseConfigFile, mbind, M_bind, emit, cout, lift, store_var_map,
    notify, raise, mret, M_ret.
  destruct (fs path) as [lines|]; [|reflexivity].
  destruct (parse_config_file lines desc) as [e|opts]; [reflexivity|].
  destruct (store opts desc (var_map g)) as [vm [e|]]; reflexivity.
Qed.

(** A string option takes exactly one token, its text. *)
Lemma typed_string_value d st tokens a :
  typed_value_of (typed_value T_string d st) tokens = Some a ->
  a = any_string (hd "" tokens).
Proof.
  unfold typed_value_of. simpl.
  destruct tokens as [|x [|y l]]; simpl; congruence.
Qed.

(** *** The command line pass at process start *)

Section InitialRun.

Variable argv : list string.
Variable port : Z.
Variable opts : list basic_option.
Variable vm : variables_map.
Hypothesis Hparse : parse_command_line argv (cli port) = ok opts.
Hypothesis Hstore : store opts (cli port) empty_map = (vm, None).

Lemma cli_store_lookup k :
  entries vm !! k =
  match supplied opts k with
  | Some o => explicit_entry (cli port) o
  | None => default_entry (options (cli port)) k
  end.
Proof.
  rewrite (store_lookup _ _ _ _ k Hstore). simpl.
  rewrite bool_decide_eq_false_2 by apply not_elem_of_empty.
  now rewrite lookup_empty.
Qed.

Lemma cli_store_final k : k ∈ m_final vm <-> is_Some (supplied opts k).
Proof.
  rewrite (store_final _ _ _ _ k Hstore). simpl.
  pose proof (not_elem_of_empty (C := gset string) k). tauto.
Qed.

Lemma cli_store_explicit k o :
  supplied opts k = Some o ->
  exists d a, In d (options (cli port)) /\ m_long_name d = k
              /\ typed_value_of (semantic d) (value o) = Some a
              /\ explicit_entry (cli port) o
                  = Some (explicit_value (semantic d) a).
Proof.
  intros Hs.
  destruct (store_explicit _ _ _ _ k o Hstore) as (d & a & Hd & Ha & He);
    [apply not_elem_of_empty|assumption|].
  pose proof (parse_command_line_canonical _ _ _ Hparse) as Hc.
  unfold supplied in Hs. apply List.find_some in Hs as [Hin Hn].
  apply names_key in Hn as (Hk & Hne & _).
  rewrite List.Forall_forall in Hc.
  destruct (Hc o Hin) as [E|(d' & s & Hd' & E)].
  - rewrite Hk in E. rewrite E in Hne. discriminate Hne.
  - destruct (registry_entry port d' Hd') as (Hf & Hkey & _).
    rewrite Hkey, Hk in E. rewrite E, Hf in Hd. injection Hd as <-.
    exists d', a. auto.
Qed.

(** Only [config] is copied into [kovri_config]. *)
Lemma cli_store_target k x s :
  entries vm !! k = Some x ->
  notify_target x = Some (to_kovri_config, s) -> k = "config".
Proof.
  rewrite cli_store_lookup. intros Hx Ht.
  assert (Hsem : exists d a, In d (options (cli port)) /\ m_long_name d = k
                             /\ m_value_semantic x = Some (semantic d)
                             /\ m_value x = a).
  { destruct (supplied opts k) as [o|] eqn:Es.
    - destruct (cli_store_explicit k o Es) as (d & a & Hd & Hk & _ & He).
      rewrite He in Hx. injection Hx as <-. exists d, a. auto.
    - apply default_entry_in in Hx as (d & a & Hd & Hk & ->).
      destruct (registry_entry port d Hd) as (_ & Hkey & _).
      rewrite Hkey in Hk. exists d, a. auto. }
  destruct Hsem as (d & a & Hd & Hk & Hsem & _).
  unfold notify_target in Ht. rewrite Hsem in Ht.
  destruct (semantic d) as [z|T def [[|]|]] eqn:E; try discriminate.
  - destruct (registry_config_entry port d Hd) as (_ & Hc).
    destruct (Hc _ _ E) as (? & _). congruence.
  - destruct (m_value x); discriminate.
Qed.

(** After the command line pass and [notify], [kovri_config] is the path
    given to [--config], or the default path. *)
Lemma cli_store_kovri_config g :
  kovri_config (notified (set_var_map g vm)) = cli_path GetFullPath opts.
Proof.
  rewrite notified_kovri_config by (simpl; apply cli_store_target).
  simpl. rewrite cli_store_lookup. unfold cli_path.
  destruct (supplied opts "config") as [o|] eqn:Es.
  - destruct (cli_store_explicit _ o Es) as (d & a & Hd & Hk & Ha & ->).
    destruct (registry_entry port d Hd) as (Hf & _).
    rewrite Hk in Hf. destruct (find_config port) as (d' & Hf' & Hsem).
    rewrite Hf in Hf'. injection Hf' as <-. rewrite Hsem in Ha |- *.
    apply typed_string_value in Ha. subst a. reflexivity.
  - reflexivity.
Qed.

End InitialRun.

(** *** Runs that return *)

(** A run that returns went through the command line pass, [notify], the
    config file and the display, in this order. *)
Lemma ParseArgs_returned fs argv g b g' t :
  parse_args fs argv g = (Returned b, g', t) ->
  exists opts vm1 tf td,
    parse_command_line argv (cli (drawn_port g)) = ok opts
    /\ store opts (cli (drawn_port g)) (var_map g) = (vm1, None)
    /\ ParseConfigFile fs
         (kovri_config (notified (set_var_map (drawn g) vm1)))
         (cfg (drawn_port g)) (notified (set_var_map (drawn g) vm1))
       = (Returned tt, g', tf)
    /\ display KOVRI_VERSION GetFullPath (drawn_port g) (var_map g') g'
       = (Returned b, g', td)
    /\ t = (tf ++ td)%list.
Proof.
  rewrite ParseArgs_unfold. cbv zeta.
  destruct (parse_command_line _ _) as [e|opts]; [discriminate|].
  destruct (store _ _ _) as [vm1 [e|]] eqn:Es; [discriminate|].
  destruct (ParseConfigFile _ _ _ _) as [[[[]|e] g2] tf] eqn:Ef;
    [|discriminate].
  destruct (display _ _ _ _ _) as [[r g3] td] eqn:Ed.
  pose proof (display_state _ _ _ _ _ _ Ed) as ->.
  intros [= -> <- <-]. exists opts, vm1, tf, td. auto 10.
Qed.

(** The config file pass that returns either could not open the file and
    changed nothing, or stored the options of the file. *)
Lemma ParseConfigFile_returned fs path desc g g' tf :
  ParseConfigFile fs path desc g = (Returned tt, g', tf) ->
  (fs path = None /\ g' = g
   /\ tf = [ifstream_open path false;
            cout_text ("Could not open " +:+ path +:+ "!" +:+ nl)])
  \/ (exists lines fopts vm2,
        fs path = Some lines
        /\ parse_config_file lines desc = ok fopts
        /\ store fopts desc (var_map g) = (vm2, None)
        /\ g' = notified (set_var_map g vm2)
        /\ tf = [ifstream_open path true]).
Proof.
  rewrite ParseConfigFile_run.
  destruct (fs path) as [lines|]; [|intros [= <- <-]; auto].
  destruct (parse_config_file lines desc) as [e|fopts] eqn:Ep;
    [discriminate|].
  destruct (store fopts desc (var_map g)) as [vm2 [e|]] eqn:Es;
    [discriminate|].
  intros [= <- <-]. right. exists lines, fopts, vm2. auto 10.
Qed.

(** What the display does, by the two flags in the map. *)
Lemma display_help port vm g :
  count vm "help" = true ->
  display KOVRI_VERSION GetFullPath port vm g
  = (Returned false, g, [cout_description (kovri KOVRI_VERSION); cout_text nl]).
Proof. unfold display. now intros ->. Qed.

Lemma display_help_with port vm g x s :
  count vm "help" = false ->
  entries vm !! "help-with" = Some x -> m_value x = any_string s ->
  display KOVRI_VERSION GetFullPath port vm g
  = (Returned false, g,
     if String.eqb s "all" then [cout_description (cfg port)]
     else if String.eqb s "basic" then [cout_description (basic port)]
     else if String.eqb s "system" then [cout_description system]
     else if String.eqb s "network" then [cout_description network]
     else if String.eqb s "proxy" then [cout_description proxy]
     else if String.eqb s "i2pcs" then [cout_description i2pcs]
     else if String.eqb s "config" then [cout_description (config GetFullPath)]
     else [cout_text ("Unknown option '" +:+ s +:+ "'" +:+ nl +:+
                      "Try using --help"); cout_text nl]).
Proof.
  unfold display, count, get. intros -> -> Hs.
  unfold as_string. rewrite Hs.
  unfold mbind, M_bind, mret, M_ret. cbv beta iota.
  repeat match goal with |- context [String.eqb s ?c] =>
           destruct (String.eqb s c) end; reflexivity.
Qed.

Lemma display_none port vm g :
  count vm "help" = false -> count vm "help-with" = false ->
  display KOVRI_VERSION GetFullPath port vm g = (Returned true, g, []).
Proof. unfold display. now intros -> ->. Qed.

(** *** The merge of a first run *)

Abbreviation port0 := (RandInRange 0%nat 9111 30777).

Lemma initial_run fs argv b g' t opts :
  parse_args fs argv initial_globals = (Returned b, g', t) ->
  parse_command_line argv (cli port0) = ok opts ->
  exists vm1 tf td,
    store opts (cli port0) empty_map = (vm1, None)
    /\ t = (tf ++ td)%list
    /\ display KOVRI_VERSION GetFullPath port0 (var_map g') g'
       = (Returned b, g', td)
    /\ ((fs (cli_path GetFullPath opts) = None /\ var_map g' = vm1
         /\ tf = [ifstream_open (cli_path GetFullPath opts) false;
                  cout_text ("Could not open " +:+ cli_path GetFullPath opts
                             +:+ "!" +:+ nl)])
        \/ (exists lines fopts,
              fs (cli_path GetFullPath opts) = Some lines
              /\ parse_config_file lines (cfg port0) = ok fopts
              /\ store fopts (cfg port0) vm1 = (var_map g', None)
              /\ tf = [ifstream_open (cli_path GetFullPath opts) true])).
Proof.
  intros Hrun Hparse.
  apply ParseArgs_returned in Hrun as (opts' & vm1 & tf & td & Hp & Hs & Hf & Hd & ->).
  change (RandInRange (rand_calls initial_globals) 9111 30777)
    with port0 in Hp, Hs, Hf, Hd.
  change (var_map initial_globals) with empty_map in Hs.
  rewrite Hparse in Hp. injection Hp as <-.
  rewrite (cli_store_kovri_config argv port0 opts vm1 Hparse Hs) in Hf.
  exists vm1, tf, td. repeat split; try assumption.
  apply ParseConfigFile_returned in Hf
    as [(Hn & -> & ->)|(lines & fopts & vm2 & Hl & Hpf & Hsf & -> & ->)].
  - left. auto.
  - right. exists lines, fopts. auto.
Qed.

Lemma file_options_none fs port opts :
  fs (cli_path GetFullPath opts) = None ->
  file_options GetFullPath fs port opts = [].
Proof. unfold file_options. now intros ->. Qed.

Lemma file_options_some fs port opts lines fopts :
  fs (cli_path GetFullPath opts) = Some lines ->
  parse_config_file lines (cfg port) = ok fopts ->
  file_options GetFullPath fs port opts = fopts.
Proof. unfold file_options. now intros -> ->. Qed.

(** The entry of every key after a first run that returns: the command
    line's, else the file's, else the default. *)
Lemma initial_merge fs argv b g' t opts k :
  parse_args fs argv initial_globals = (Returned b, g', t) ->
  parse_command_line argv (cli port0) = ok opts ->
  entries (var_map g') !! k =
    match supplied opts k with
    | Some o => explicit_entry (cli port0) o
    | None =>
        match supplied (file_options GetFullPath fs port0 opts) k with
        | Some o => explicit_entry (cfg port0) o
        | None => default_entry (options (cli port0)) k
        end
    end
  /\ (k ∈ m_final (var_map g') <->
        is_Some (supplied opts k)
        \/ is_Some (supplied (file_options GetFullPath fs port0 opts) k))
  /\ (forall o,
        supplied opts k = None ->
        supplied (file_options GetFullPath fs port0 opts) k = Some o ->
        exists d a,
          find (cfg port0) k false = ok d
          /\ typed_value_of (semantic d) (value o) = Some a
          /\ explicit_entry (cfg port0) o
              = Some (explicit_value (semantic d) a)).
Proof.
  intros Hrun Hparse.
  destruct (initial_run _ _ _ _ _ _ Hrun Hparse)
    as (vm1 & tf & td & Hs & _ & _ & Hfile).
  pose proof (cli_store_lookup port0 opts vm1 Hs k) as H1.
  pose proof (cli_store_final port0 opts vm1 Hs k) as F1.
  destruct Hfile as [(Hn & -> & _)|(lines & fopts & Hl & Hpf & Hsf & _)].
  - rewrite (file_options_none _ _ _ Hn). simpl.
    split; [assumption|]. split; [|discriminate].
    split; [intros H; left; now apply F1|].
    intros [?|[? ?]]; [now apply F1|discriminate].
  - rewrite (file_options_some _ _ _ _ _ Hl Hpf).
    pose proof (store_final _ _ _ _ k Hsf) as F2.
    split; [|split; [tauto|]].
    + rewrite (store_lookup _ _ _ _ k Hsf).
      destruct (supplied opts k) as [o|] eqn:Es.
      * rewrite bool_decide_eq_true_2 by (apply F1; eauto).
        rewrite H1.
        destruct (cli_store_explicit argv port0 opts vm1 Hparse Hs k o Es)
          as (d & a & _ & _ & _ & ->).
        reflexivity.
      * rewrite bool_decide_eq_false_2
          by (intros Hin; apply F1 in Hin as [? ?]; discriminate).
        destruct (supplied fopts k); [reflexivity|].
        rewrite H1, default_entry_cli.
        generalize (default_entry (options (cfg port0)) k).
        intros [x|]; reflexivity.
    + intros o Hno Hso. eapply store_explicit; eauto.
      intros Hin. apply F1 in Hin as [? ?]. congruence.
Qed.

Lemma find_help_with port :
  exists d,
    find (cli port) "help-with" false = ok d
    /\ semantic d = typed_value T_string any_empty None.
Proof. eexists. split; reflexivity. Qed.

Lemma default_entry_help port :
  default_entry (options (cli port)) "help" = None
  /\ default_entry (options (cli port)) "help-with" = None.
Proof. split; reflexivity. Qed.

Lemma config_options_in_cli port d :
  In d (options (cfg port)) -> In d (options (cli port)).
Proof.
  destruct (cli_options_split port) as (dh & dw & -> & _). simpl. auto.
Qed.

Lemma config_options_have_defaults port d :
  In d (options (cfg port)) -> is_Some (apply_default (semantic d)).
Proof. intros Hin. registry_cases Hin; eexists; reflexivity. Qed.

(** The value of [help-with] in the map of a first command line pass is a
    string. *)
Lemma cli_help_with_string argv port opts vm x :
  parse_command_line argv (cli port) = ok opts ->
  store opts (cli port) empty_map = (vm, None) ->
  entries vm !! "help-with" = Some x ->
  exists o, supplied opts "help-with" = Some o
            /\ m_value x = any_string (hd "" (value o)).
Proof.
  intros Hparse Hstore. rewrite (cli_store_lookup port opts vm Hstore).
  destruct (supplied opts "help-with") as [o|] eqn:Es.
  - destruct (cli_store_explicit argv port opts vm Hparse Hstore _ o Es)
      as (d & a & Hd & Hk & Ha & ->).
    destruct (registry_entry port d Hd) as (Hf & _). rewrite Hk in Hf.
    destruct (find_help_with port) as (d0 & Hf0 & Hsem).
    rewrite Hf in Hf0. injection Hf0 as <-. rewrite Hsem in Ha.
    apply typed_string_value in Ha. subst a.
    intros [= <-]. exists o. auto.
  - destruct (default_entry_help port) as [_ ->]. discriminate.
Qed.

(** The display of a first run with an unopenable config file returns. *)
Lemma cli_display_returns argv port opts vm g :
  parse_command_line argv (cli port) = ok opts ->
  store opts (cli port) empty_map = (vm, None) ->
  exists b td,
    display KOVRI_VERSION GetFullPath port vm g = (Returned b, g, td).
Proof.
  intros Hparse Hstore.
  destruct (count vm "help") eqn:Eh.
  - rewrite display_help by assumption. eauto.
  - destruct (entries vm !! "help-with") as [x|] eqn:Ew.
    + destruct (cli_help_with_string _ _ _ _ _ Hparse Hstore Ew)
        as (o & _ & Hv).
      erewrite display_help_with by eassumption. eauto.
    + rewrite display_none; [eauto|assumption|].
      unfold count. now rewrite Ew.
Qed.

(** The entry of a key that only the command line can give. *)
Lemma initial_flag fs argv b g' t opts k :
  parse_args fs argv initial_globals = (Returned b, g', t) ->
  parse_command_line argv (cli port0) = ok opts ->
  find (cfg port0) k false = throw (unknown_option k) ->
  default_entry (options (cli port0)) k = None ->
  entries (var_map g') !! k =
  match supplied opts k with
  | Some o => explicit_entry (cli port0) o
  | None => None
  end.
Proof.
  intros Hrun Hparse Hno Hdef.
  destruct (initial_merge _ _ _ _ _ _ k Hrun Hparse) as (-> & _ & Hfile).
  destruct (supplied opts k) as [o|] eqn:Es; [reflexivity|].
  destruct (supplied (file_options GetFullPath fs port0 opts) k)
    as [o|] eqn:Ef; [|assumption].
  destruct (Hfile o eq_refl eq_refl) as (d & a & Hf & _). congruence.
Qed.

Lemma initial_help fs argv b g' t opts :
  parse_args fs argv initial_globals = (Returned b, g', t) ->
  parse_command_line argv (cli port0) = ok opts ->
  count (var_map g') "help" = bool_decide (is_Some (supplied opts "help")).
Proof.
  intros Hrun Hparse.
  destruct (initial_run _ _ _ _ _ _ Hrun Hparse) as (vm1 & _ & _ & Hs & _).
  destruct (config_options_no_help port0) as [Hh _].
  destruct (default_entry_help port0) as [Dh _].
  unfold count. rewrite (initial_flag _ _ _ _ _ _ _ Hrun Hparse Hh Dh).
  destruct (supplied opts "help") as [o|] eqn:Es.
  - destruct (cli_store_explicit argv port0 opts vm1 Hparse Hs _ o Es)
      as (d & a & _ & _ & _ & ->).
    now rewrite bool_decide_eq_true_2 by eauto.
  - now rewrite bool_decide_eq_false_2 by (intros [? ?]; discriminate).
Qed.

Lemma initial_help_with fs argv b g' t opts o :
  parse_args fs argv initial_globals = (Returned b, g', t) ->
  parse_command_line argv (cli port0) = ok opts ->
  supplied opts "help-with" = Some o ->
  exists x, entries (var_map g') !! "help-with" = Some x
            /\ m_value x = any_string (hd "" (value o)).
Proof.
  intros Hrun Hparse Es.
  destruct (initial_run _ _ _ _ _ _ Hrun Hparse) as (vm1 & _ & _ & Hs & _).
  destruct (config_options_no_help port0) as [_ Hw].
  destruct (default_entry_help port0) as [_ Dw].
  rewrite (initial_flag _ _ _ _ _ _ _ Hrun Hparse Hw Dw), Es.
  pose proof (cli_store_lookup port0 opts vm1 Hs "help-with") as Hl.
  rewrite Es in Hl. rewrite <- Hl.
  destruct (entries vm1 !! "help-with") as [x|] eqn:Ex.
  - destruct (cli_help_with_string _ _ _ _ _ Hparse Hs Ex) as (o' & Es' & Hv).
    rewrite Es in Es'. injection Es' as <-. eauto.
  - destruct (cli_store_explicit argv port0 opts vm1 Hparse Hs _ o Es)
      as (d & a & _ & _ & _ & He). congruence.
Qed.

(** A value that is final survives a run, however the run ends. *)
Lemma final_survives fs argv g r g' t k x :
  parse_args fs argv g = (r, g', t) ->
  k ∈ m_final (var_map g) -> entries (var_map g) !! k = Some x ->
  entries (var_map g') !! k = Some x /\ k ∈ m_final (var_map g').
Proof.
  rewrite ParseArgs_unfold. cbv zeta. intros Hrun Hf Hx.
  destruct (parse_command_line _ _) as [e|opts];
    [injection Hrun as _ <- _; auto|].
  destruct (store opts _ _) as [vm1 err] eqn:Es.
  destruct (store_keeps_final _ _ _ _ _ _ _ Es Hf Hx) as [Hx1 Hf1].
  destruct err as [e|]; [injection Hrun as _ <- _; auto|].
  rewrite ParseConfigFile_run in Hrun.
  assert (Hd : forall g2 tf,
            var_map g2 = vm1 \/
            (entries (var_map g2) !! k = Some x /\ k ∈ m_final (var_map g2)) ->
            (let '(r3, g3, td) :=
               display KOVRI_VERSION GetFullPath (drawn_port g) (var_map g2) g2
             in (r3, g3, (tf ++ td)%list)) = (r, g', t) ->
            entries (var_map g') !! k = Some x /\ k ∈ m_final (var_map g')).
  { intros g2 tf Hg2.
    destruct (display _ _ _ _ _) as [[r3 g3] td] eqn:Ed.
    apply display_state in Ed as ->. intros [= _ <- _].
    destruct Hg2 as [->|?]; auto. }
  destruct (fs _) as [lines|]; [|eapply Hd; [|exact Hrun]; left; reflexivity].
  destruct (parse_config_file lines _) as [e|fopts];
    [injection Hrun as _ <- _; auto|].
  destruct (store fopts _ _) as [vm2 err] eqn:Es2.
  cbn [var_map notified set_configs set_var_map] in Es2.
  destruct (store_keeps_final _ _ _ _ _ _ _ Es2 Hf1 Hx1) as [Hx2 Hf2].
  destruct err as [e|]; [injection Hrun as _ <- _; auto|].
  eapply Hd; [|exact Hrun]. right. auto.
Qed.

(** The config file pass cannot give a key that its registry lacks. *)
Lemma file_store_flags port fopts vm1 vm2 k :
  store fopts (cfg port) vm1 = (vm2, None) ->
  find (cfg port) k false = throw (unknown_option k) ->
  default_entry (options (cfg port)) k = None ->
  entries vm2 !! k = entries vm1 !! k.
Proof.
  intros Hs Hno Hdef. rewrite (store_lookup _ _ _ _ k Hs), Hdef.
  case_bool_decide as Hf; [now destruct (entries vm1 !! k)|].
  destruct (supplied fopts k) as [o|] eqn:Es;
    [|now destruct (entries vm1 !! k)].
  destruct (store_explicit _ _ _ _ k o Hs Hf Es) as (d & a & Hd & _).
  congruence.
Qed.

(** A first run returns whenever the command line is parsed and stored
    and the config file pass returns: the display does not throw. *)
Lemma first_run_returns fs argv opts vm1 g2 tf :
  parse_command_line argv (cli port0) = ok opts ->
  store opts (cli port0) empty_map = (vm1, None) ->
  ParseConfigFile fs (cli_path GetFullPath opts) (cfg port0)
    (notified (set_var_map (drawn initial_globals) vm1))
  = (Returned tt, g2, tf) ->
  exists b td,
    parse_args fs argv initial_globals = (Returned b, g2, (tf ++ td)%list)
    /\ display KOVRI_VERSION GetFullPath port0 (var_map g2) g2
       = (Returned b, g2, td).
Proof.
  intros Hparse Hs Hf.
  assert (Hshape : forall r g3 td,
            display KOVRI_VERSION GetFullPath port0 (var_map g2) g2
            = (r, g3, td) ->
            parse_args fs argv initial_globals = (r, g3, (tf ++ td)%list)).
  { intros r g3 td Hd. rewrite ParseArgs_unfold. cbv zeta.
    change (RandInRange (rand_calls initial_globals) 9111 30777) with port0.
    change (var_map initial_globals) with empty_map.
    rewrite Hparse, Hs.
    rewrite (cli_store_kovri_config argv port0 opts vm1 Hparse Hs).
    now rewrite Hf, Hd. }
  assert (Hw : entries (var_map g2) !! "help-with"
               = entries vm1 !! "help-with").
  { apply ParseConfigFile_returned in Hf
      as [(_ & -> & _)|(lines & fopts & vm2 & _ & _ & Hsf & -> & _)];
      [reflexivity|].
    destruct (config_options_no_help port0) as [_ Hno].
    apply (file_store_flags _ _ _ _ _ Hsf Hno).
    rewrite <- default_entry_cli. apply default_entry_help. }
  destruct (count (var_map g2) "help") eqn:Eh.
  - exists false. eexists. split; [apply Hshape|]; now apply display_help.
  - destruct (entries (var_map g2) !! "help-with") as [x|] eqn:Ew.
    + symmetry in Hw.
      destruct (cli_help_with_string _ _ _ _ _ Hparse Hs Hw) as (o & _ & Hv).
      exists false. eexists.
      split; [apply Hshape|]; eapply display_help_with; eassumption.
    + exists true, []. split; [apply Hshape|]; apply display_none;
        try assumption; unfold count; now rewrite Ew.
Qed.

(** *** Resolution of the registry keys *)

(** The resolution of a registry key after a first run that returns. *)
Lemma initial_resolved fs argv b g' t opts d :
  parse_args fs argv initial_globals = (Returned b, g', t) ->
  parse_command_line argv (cli port0) = ok opts ->
  In d (options (cli port0)) ->
  let k := m_long_name d in
  let file := file_options GetFullPath fs port0 opts in
  resolved (var_map g') k =
    match supplied opts k with
    | Some o => from_source d o
    | None =>
        match supplied file k with
        | Some o => from_source d o
        | None => from_default d
        end
    end
  /\ (forall o,
        supplied opts k = Some o
        \/ (supplied opts k = None /\ supplied file k = Some o) ->
        is_Some (from_source d o))
  /\ (forall vm1,
        store opts (cli port0) empty_map = (vm1, None) ->
        is_Some (supplied opts k) ->
        entries (var_map g') !! k = entries vm1 !! k).
Proof.
  intros Hrun Hparse Hd k file.
  destruct (initial_merge _ _ _ _ _ _ k Hrun Hparse) as (Hm & _ & Hfile).
  destruct (initial_run _ _ _ _ _ _ Hrun Hparse) as (vm1 & _ & _ & Hs & _).
  destruct (registry_entry port0 d Hd) as (Hfind & _ & _ & Hdef).
  destruct (registry_config_entry port0 d Hd) as (Hcfg & _).
  fold k in Hfind, Hdef, Hcfg. fold file in Hm, Hfile.
  assert (Hcli : forall o, supplied opts k = Some o ->
            exists a, typed_value_of (semantic d) (value o) = Some a
                      /\ explicit_entry (cli port0) o
                          = Some (explicit_value (semantic d) a)).
  { intros o Es.
    destruct (cli_store_explicit argv port0 opts vm1 Hparse Hs k o Es)
      as (d' & a & Hd' & Hk' & Ha & He).
    destruct (registry_entry port0 d' Hd') as (Hfind' & _).
    rewrite Hk', Hfind in Hfind'. injection Hfind' as <-.
    exists a. split; assumption. }
  assert (Hfl : forall o, supplied opts k = None -> supplied file k = Some o ->
            exists a, typed_value_of (semantic d) (value o) = Some a
                      /\ explicit_entry (cfg port0) o
                          = Some (explicit_value (semantic d) a)).
  { intros o En Es. destruct (Hfile o En Es) as (d' & a & Hf' & Ha & He).
    destruct (config_options_no_help port0) as [Hh Hw].
    destruct Hcfg as [E|[E|E]]; rewrite E in Hf'; [congruence|congruence|].
    injection Hf' as <-. exists a. split; assumption. }
  unfold resolved, from_source, from_default. rewrite Hm.
  split; [|split].
  - destruct (supplied opts k) as [o|] eqn:Es.
    + destruct (Hcli o eq_refl) as (a & -> & ->). reflexivity.
    + destruct (supplied file k) as [o|] eqn:Ef.
      * destruct (Hfl o eq_refl eq_refl) as (a & -> & ->). reflexivity.
      * rewrite Hdef. now destruct (apply_default (semantic d)).
  - intros o [Es|[En Es]].
    + destruct (Hcli o Es) as (a & -> & _). eauto.
    + destruct (Hfl o En Es) as (a & -> & _). eauto.
  - intros vm1' Hs' [o Es]. rewrite Hs in Hs'. injection Hs' as <-.
    rewrite (cli_store_lookup port0 opts vm1 Hs k), Es. reflexivity.
Qed.

(** The display opens no file. *)
Lemma display_no_open port vm g r g' td :
  display KOVRI_VERSION GetFullPath port vm g = (r, g', td) ->
  forall p good, ~ In (ifstream_open p good) td.
Proof.
  unfold display, mbind, M_bind, as_string, cout_desc, cout, endl, emit,
    raise, mret, M_ret.
  assert (Hn : forall td' : list event,
             (forall e, In e td' -> forall p good, e <> ifstream_open p good) ->
             forall p good, ~ In (ifstream_open p good) td').
  { intros td' H p good Hin. exact (H _ Hin p good eq_refl). }
  destruct (count vm "help");
    [intros [= _ _ <-]; apply Hn; cbn; intuition (subst; discriminate)|].
  destruct (count vm "help-with");
    [|intros [= _ _ <-]; apply Hn; cbn; intuition (subst; discriminate)].
  destruct (m_value (get vm "help-with"));
    try (intros [= _ _ <-]; apply Hn; cbn; intuition (subst; discriminate)).
  repeat match goal with |- context [if ?c then _ else _] => destruct c end;
    intros [= _ _ <-]; apply Hn; cbn; intuition (subst; discriminate).
Qed.

(** ** The merge *)

(** C1: after a first run of [ParseArgs] that returns, every key of the
    registry resolves to the value given on the command line if one was
    given there, else to the value given in the config file if one was
    given there, else to the declared default of its description; a value
    given on the command line is the one the command line pass stored, the
    file pass does not overwrite it. *)
Theorem merge_precedence fs argv b g' t opts d :
  parse_args fs argv initial_globals = (Returned b, g', t) ->
  parse_command_line argv (cli port0) = ok opts ->
  In d (options (cli port0)) ->
  let k := m_long_name d in
  let file := file_options GetFullPath fs port0 opts in
  resolved (var_map g') k =
    match supplied opts k with
    | Some o => from_source d o
    | None =>
        match supplied file k with
        | Some o => from_source d o
        | None => from_default d
        end
    end
  /\ (forall o,
        supplied opts k = Some o
        \/ (supplied opts k = None /\ supplied file k = Some o) ->
        is_Some (from_source d o))
  /\ (forall vm1,
        store opts (cli port0) empty_map = (vm1, None) ->
        is_Some (supplied opts k) ->
        entries (var_map g') !! k = entries vm1 !! k).
Proof. apply initial_resolved. Qed.

(** C8: the file that a first run of [ParseArgs] opens, once the command
    line is parsed and stored, is the path given to [--config] on the
    command line, and the path that [GetFullPath] computes for
    [kovri.conf] when none is given; no other file is opened. *)
Theorem config_file_is_command_line_path fs argv r g' t opts vm1 :
  parse_args fs argv initial_globals = (r, g', t) ->
  parse_command_line argv (cli port0) = ok opts ->
  store opts (cli port0) empty_map = (vm1, None) ->
  let path :=
    match supplied opts "config" with
    | Some o => hd "" (value o)
    | None => GetFullPath "kovri.conf"
    end in
  exists t',
    t = ifstream_open path (bool_decide (is_Some (fs path))) :: t'
    /\ forall p good, ~ In (ifstream_open p good) t'.
Proof.
  intros Hrun Hparse Hs path.
  rewrite ParseArgs_unfold in Hrun. cbv zeta in Hrun.
  change (RandInRange (rand_calls initial_globals) 9111 30777)
    with port0 in Hrun.
  change (var_map initial_globals) with empty_map in Hrun.
  rewrite Hparse, Hs in Hrun.
  rewrite (cli_store_kovri_config argv port0 opts vm1 Hparse Hs) in Hrun.
  change (cli_path GetFullPath opts) with path in Hrun.
  rewrite ParseConfigFile_run in Hrun.
  destruct (fs path) as [lines|] eqn:Efs.
  - rewrite bool_decide_eq_true_2 by eauto.
    destruct (parse_config_file lines _) as [e|fopts].
    + injection Hrun as _ _ <-. eexists. split; [reflexivity|].
      intros p good [].
    + destruct (store fopts _ _) as [vm2 [e|]].
      * injection Hrun as _ _ <-. eexists. split; [reflexivity|].
        intros p good [].
      * destruct (display _ _ _ _ _) as [[r3 g3] td] eqn:Ed.
        injection Hrun as _ _ <-. exists td. split; [reflexivity|].
        eapply display_no_open. eassumption.
  - rewrite bool_decide_eq_false_2 by (intros [? ?]; discriminate).
    destruct (display _ _ _ _ _) as [[r3 g3] td] eqn:Ed.
    injection Hrun as _ _ <-. eexists. split; [reflexivity|].
    intros p good [Hin|Hin]; [discriminate|].
    revert Hin. eapply display_no_open. eassumption.
Qed.

(** C9 (as amended): after a first run of [ParseArgs] that returns,
    every key that declares a default, which is every key of the config
    file registry, has an entry in the map; [help] and [help-with] declare
    none and have an entry exactly when the command line gives them. *)
Theorem registry_keys_after_merge fs argv b g' t opts :
  parse_args fs argv initial_globals = (Returned b, g', t) ->
  parse_command_line argv (cli port0) = ok opts ->
  (forall d, In d (options (cfg port0)) ->
             is_Some (entries (var_map g') !! m_long_name d))
  /\ (is_Some (entries (var_map g') !! "help")
      <-> is_Some (supplied opts "help"))
  /\ (is_Some (entries (var_map g') !! "help-with")
      <-> is_Some (supplied opts "help-with")).
Proof.
  intros Hrun Hparse.
  destruct (initial_run _ _ _ _ _ _ Hrun Hparse) as (vm1 & _ & _ & Hs & _).
  assert (Hflag : forall k,
            find (cfg port0) k false = throw (unknown_option k) ->
            default_entry (options (cli port0)) k = None ->
            is_Some (entries (var_map g') !! k) <-> is_Some (supplied opts k)).
  { intros k Hno Hdef.
    destruct (initial_merge _ _ _ _ _ _ k Hrun Hparse) as (-> & _ & Hfile).
    destruct (supplied opts k) as [o|] eqn:Es.
    - destruct (cli_store_explicit argv port0 opts vm1 Hparse Hs k o Es)
        as (d & a & _ & _ & _ & ->). split; eauto.
    - destruct (supplied (file_options GetFullPath fs port0 opts) k)
        as [o|] eqn:Ef.
      + destruct (Hfile o eq_refl eq_refl) as (d & a & Hf & _). congruence.
      + rewrite Hdef. split; intros [? ?]; discriminate. }
  destruct (config_options_no_help port0) as [Hh Hw].
  destruct (default_entry_help port0) as [Dh Dw].
  split; [|split; apply Hflag; assumption].
  intros d Hd.
  destruct (initial_resolved _ _ _ _ _ _ d Hrun Hparse
              (config_options_in_cli _ _ Hd)) as (Hr & Hsrc & _).
  cbv zeta in Hr, Hsrc. unfold resolved in Hr.
  assert (Hsome : is_Some (match entries (var_map g') !! m_long_name d with
                           | Some x => Some (m_value x, m_defaulted x)
                           | None => None
                           end)).
  { rewrite Hr.
    destruct (supplied opts (m_long_name d)) as [o|] eqn:Es; [auto|].
    destruct (supplied (file_options GetFullPath fs port0 opts)
                (m_long_name d)) as [o|] eqn:Ef; [auto|].
    unfold from_default.
    destruct (config_options_have_defaults _ _ Hd) as [a ->]. eauto. }
  destruct (entries (var_map g') !! m_long_name d); [eauto|].
  destruct Hsome. discriminate.
Qed.

(** C4: when the config file cannot be opened, [ParseConfigFile] returns,
    having reported it and changed nothing; the first run of [ParseArgs]
    then returns with the map of the command line pass, in which every
    registry key has the command line's value or else its default. *)
Theorem missing_config_file fs argv opts vm1 :
  parse_command_line argv (cli port0) = ok opts ->
  store opts (cli port0) empty_map = (vm1, None) ->
  fs (cli_path GetFullPath opts) = None ->
  let path := cli_path GetFullPath opts in
  let report :=
    [ifstream_open path false;
     cout_text ("Could not open " +:+ path +:+ "!" +:+ nl)] in
  (forall desc g,
     ParseConfigFile fs path desc g = (Returned tt, g, report))
  /\ (exists b g' td,
        parse_args fs argv initial_globals
        = (Returned b, g', (report ++ td)%list)
        /\ var_map g' = vm1)
  /\ (forall d, In d (options (cli port0)) ->
        resolved vm1 (m_long_name d) =
        match supplied opts (m_long_name d) with
        | Some o => from_source d o
        | None => from_default d
        end).
Proof.
  intros Hparse Hs Hfs path report.
  assert (Hpcf : forall desc g,
            ParseConfigFile fs path desc g = (Returned tt, g, report)).
  { intros desc g. rewrite ParseConfigFile_run. fold path in Hfs.
    now rewrite Hfs. }
  split; [assumption|].
  assert (Hrun : exists b g' td,
            parse_args fs argv initial_globals
            = (Returned b, g', (report ++ td)%list) /\ var_map g' = vm1).
  { rewrite ParseArgs_unfold. cbv zeta.
    change (RandInRange (rand_calls initial_globals) 9111 30777) with port0.
    change (var_map initial_globals) with empty_map.
    rewrite Hparse, Hs.
    rewrite (cli_store_kovri_config argv port0 opts vm1 Hparse Hs).
    fold path. rewrite Hpcf.
    destruct (cli_display_returns argv port0 opts vm1
                (notified (set_var_map (drawn initial_globals) vm1))
                Hparse Hs) as (b & td & Hd).
    change (var_map (notified (set_var_map (drawn initial_globals) vm1)))
      with vm1.
    rewrite Hd. eauto 6. }
  split; [assumption|].
  destruct Hrun as (b & g' & td & Hrun & <-).
  intros d Hd.
  destruct (initial_resolved _ _ _ _ _ _ d Hrun Hparse Hd) as (Hr & _).
  cbv zeta in Hr. rewrite Hr, (file_options_none _ _ _ Hfs). simpl.
  reflexivity.
Qed.

(** ** Help *)

(** C2: when the command line of a first run gives both [--help] and
    [--help-with], and it is parsed and stored and the config file pass
    returns, [ParseArgs] returns [false]; what it prints after the config
    file pass is the description [kovri] alone, the banner with the Help
    options, and nothing for [help-with]. *)
Theorem help_before_help_with fs argv opts vm1 g2 tf :
  parse_command_line argv (cli port0) = ok opts ->
  store opts (cli port0) empty_map = (vm1, None) ->
  ParseConfigFile fs (cli_path GetFullPath opts) (cfg port0)
    (notified (set_var_map (drawn initial_globals) vm1))
  = (Returned tt, g2, tf) ->
  is_Some (supplied opts "help") -> is_Some (supplied opts "help-with") ->
  let path := cli_path GetFullPath opts in
  parse_args fs argv initial_globals
  = (Returned false, g2,
     (tf ++ [cout_description (kovri KOVRI_VERSION); cout_text nl])%list)
  /\ (tf = [ifstream_open path true]
      \/ tf = [ifstream_open path false;
               cout_text ("Could not open " +:+ path +:+ "!" +:+ nl)])
  /\ shown_options (kovri KOVRI_VERSION) = options help.
Proof.
  intros Hparse Hs Hf Hh _ path.
  destruct (first_run_returns _ _ _ _ _ _ Hparse Hs Hf)
    as (b & td & Hrun & Hd).
  rewrite display_help in Hd
    by (rewrite (initial_help _ _ _ _ _ _ Hrun Hparse);
        now apply bool_decide_eq_true_2).
  injection Hd as <- <-.
  split; [exact Hrun|]. split; [|reflexivity].
  apply ParseConfigFile_returned in Hf
    as [(_ & _ & ->)|(lines & fopts & vm2 & _ & _ & _ & _ & ->)]; auto.
Qed.

(** C3: when the command line of a first run gives [--help-with s] and no
    [--help], and it is parsed and stored and the config file pass
    returns, [ParseArgs] returns [false]; after the config file pass it
    prints all the config file options for [all], the one category for
    each of the six category names, and for any other [s] the message that
    names [s] and points to [--help]. *)
Theorem help_with_selects_category fs argv opts vm1 g2 tf o s :
  parse_command_line argv (cli port0) = ok opts ->
  store opts (cli port0) empty_map = (vm1, None) ->
  ParseConfigFile fs (cli_path GetFullPath opts) (cfg port0)
    (notified (set_var_map (drawn initial_globals) vm1))
  = (Returned tt, g2, tf) ->
  supplied opts "help" = None ->
  supplied opts "help-with" = Some o -> value o = [s] ->
  let path := cli_path GetFullPath opts in
  exists shown,
    parse_args fs argv initial_globals
    = (Returned false, g2, (tf ++ shown)%list)
    /\ (tf = [ifstream_open path true]
        \/ tf = [ifstream_open path false;
                 cout_text ("Could not open " +:+ path +:+ "!" +:+ nl)])
    /\ (s = "all" -> shown = [cout_description (cfg port0)])
    /\ (s = "basic" -> shown = [cout_description (basic port0)])
    /\ (s = "system" -> shown = [cout_description system])
    /\ (s = "network" -> shown = [cout_description network])
    /\ (s = "proxy" -> shown = [cout_description proxy])
    /\ (s = "i2pcs" -> shown = [cout_description i2pcs])
    /\ (s = "config" -> shown = [cout_description (config GetFullPath)])
    /\ (~ In s ["all"; "basic"; "system"; "network"; "proxy"; "i2pcs";
                "config"] ->
        shown = [cout_text ("Unknown option '" +:+ s +:+ "'" +:+ nl
                            +:+ "Try using --help"); cout_text nl])
    /\ groups (cfg port0)
       = [basic port0; system; network; proxy; i2pcs; config GetFullPath].
Proof.
  intros Hparse Hs Hf Hh Hw Hv path.
  destruct (first_run_returns _ _ _ _ _ _ Hparse Hs Hf)
    as (b & td & Hrun & Hd).
  destruct (initial_help_with _ _ _ _ _ _ _ Hrun Hparse Hw) as (x & Hx & Hm).
  rewrite Hv in Hm. simpl in Hm.
  rewrite (display_help_with _ _ _ x s) in Hd;
    [|rewrite (initial_help _ _ _ _ _ _ Hrun Hparse), Hh;
      apply bool_decide_eq_false_2; intros [? ?]; discriminate
     |assumption|assumption].
  injection Hd as <- <-.
  eexists. split; [exact Hrun|].
  split.
  { apply ParseConfigFile_returned in Hf
      as [(_ & _ & ->)|(lines & fopts & vm2 & _ & _ & _ & _ & ->)]; auto. }
  repeat (split; [intros ->; reflexivity|]).
  split; [|reflexivity].
  intros Hn.
  repeat match goal with |- context [String.eqb s ?c] =>
           destruct (String.eqb_spec s c);
             [exfalso; apply Hn; subst s; simpl; tauto|]
         end.
  reflexivity.
Qed.

(** C6 (as amended): [ParseArgs] tests for [help] after the command line
    is stored and [ParseConfigFile] has run.  When these return and the
    map then holds [help], [ParseArgs] returns [false] in the state that
    [ParseConfigFile] left, having printed what [ParseConfigFile] printed
    and then the description [kovri], the banner with the Help options. *)
Theorem help_displays_after_config_file fs argv g opts vm1 g2 tf :
  parse_command_line argv (cli (drawn_port g)) = ok opts ->
  store opts (cli (drawn_port g)) (var_map g) = (vm1, None) ->
  ParseConfigFile fs
    (kovri_config (notified (set_var_map (drawn g) vm1)))
    (cfg (drawn_port g)) (notified (set_var_map (drawn g) vm1))
  = (Returned tt, g2, tf) ->
  count (var_map g2) "help" = true ->
  parse_args fs argv g
  = (Returned false, g2,
     (tf ++ [cout_description (kovri KOVRI_VERSION); cout_text nl])%list).
Proof.
  intros Hparse Hs Hf Hh. rewrite ParseArgs_unfold. cbv zeta.
  rewrite Hparse, Hs, Hf, display_help by assumption. reflexivity.
Qed.

(** ** Errors of the command line *)

(** C5, what the code does against the claim: when the command line pass
    ends in an exception, an unknown option met by the parser or a value
    that [store] cannot convert, [ParseArgs] has no handler and returns no
    boolean: the exception leaves it, before any file is opened and before
    anything is printed.  When the parser threw, the map is as it was. *)
Theorem command_line_error_propagates fs argv g e :
  is_UnknownOption e || is_TypeMismatch e = true ->
  parse_command_line argv (cli (drawn_port g)) = throw e
  \/ (exists opts vm,
        parse_command_line argv (cli (drawn_port g)) = ok opts
        /\ store opts (cli (drawn_port g)) (var_map g) = (vm, Some e)) ->
  exists g',
    parse_args fs argv g = (Threw e, g', [])
    /\ (parse_command_line argv (cli (drawn_port g)) = throw e ->
        var_map g' = var_map g).
Proof.
  intros _ H. rewrite ParseArgs_unfold. cbv zeta.
  destruct H as [-> | (opts & vm & -> & ->)].
  - eexists. split; reflexivity.
  - eexists. split; [reflexivity|discriminate].
Qed.

(** ** The default port *)

Lemma int_of_size_t_small n : 0 <= n <= INT_MAX -> int_of_size_t n = n.
Proof.
  unfold int_of_size_t, INT_MAX. intros H.
  rewrite Z.mod_small by lia.
  destruct (Z.leb_spec n (2 ^ 31 - 1)); lia.
Qed.

(** What [store] leaves under a key that had no entry and for which the
    registry declares a default: the explicit value of the source, or the
    default, marked as such. *)
Lemma store_fresh_key opts desc xm vm' k dx :
  store opts desc xm = (vm', None) ->
  entries xm !! k = None ->
  default_entry (options desc) k = Some dx ->
  exists x, entries vm' !! k = Some x
            /\ (m_defaulted x = true -> x = dx)
            /\ (supplied opts k = None -> x = dx).
Proof.
  intros Hs Hx Hd. rewrite (store_lookup _ _ _ _ k Hs), Hx, Hd.
  case_bool_decide as Hf; [eauto|].
  destruct (supplied opts k) as [o|] eqn:Es; [|eauto].
  destruct (store_explicit _ _ _ _ _ _ Hs Hf Es) as (d & a & _ & _ & ->).
  eexists. split; [reflexivity|]. split; discriminate.
Qed.

(** What [store] leaves under a key that had an entry: that entry, or the
    explicit value of the source. *)
Lemma store_held_key opts desc xm vm' k x0 :
  store opts desc xm = (vm', None) ->
  entries xm !! k = Some x0 ->
  exists x, entries vm' !! k = Some x
            /\ (m_defaulted x = true -> x = x0)
            /\ (supplied opts k = None -> x = x0).
Proof.
  intros Hs Hx. rewrite (store_lookup _ _ _ _ k Hs), Hx.
  case_bool_decide as Hf; [eauto|].
  destruct (supplied opts k) as [o|] eqn:Es; [|eauto].
  destruct (store_explicit _ _ _ _ _ _ Hs Hf Es) as (d & a & _ & _ & ->).
  eexists. split; [reflexivity|]. split; discriminate.
Qed.

Lemma default_entry_port port :
  default_entry (options (cli port)) "port"
  = Some (defaulted_value
            (typed_value T_int (any_int (int_of_size_t port)) None)
            (any_int (int_of_size_t port))).
Proof. reflexivity. Qed.

(** C7: whenever the random source keeps its contract, the default that a
    run of [ParseArgs] gives to [port] is the number that this run drew,
    the default that its registry declares, and lies between 9111 and
    30777, after any number of earlier draws: in a run that returns, on a
    state without an entry for [port], the value that [var_map] marks as
    defaulted is that number, and [port] is defaulted whenever neither
    the command line nor a config file supplies it. *)
Theorem port_default_in_range fs argv g b g' t :
  RandInRange_contract RandInRange ->
  parse_args fs argv g = (Returned b, g', t) ->
  entries (var_map g) !! "port" = None ->
  exists a dflt,
    resolved (var_map g') "port" = Some (a, dflt)
    /\ (dflt = true ->
        exists p, a = any_int p
                  /\ 9111 <= p <= 30777
                  /\ p = RandInRange (rand_calls g) 9111 30777
                  /\ port_default (cli p) = Some p)
    /\ ((forall opts,
           parse_command_line argv (cli (drawn_port g)) = ok opts ->
           supplied opts "port" = None) ->
        (forall path lines fopts,
           fs path = Some lines ->
           parse_config_file lines (cfg (drawn_port g)) = ok fopts ->
           supplied fopts "port" = None) ->
        dflt = true).
Proof.
  intros Hc Hrun Hnone.
  pose proof (Hc (rand_calls g) 9111 30777 ltac:(lia)) as Hr.
  assert (Hint : int_of_size_t (drawn_port g) = drawn_port g)
    by (apply int_of_size_t_small; unfold INT_MAX; lia).
  apply ParseArgs_returned in Hrun
    as (opts & vm1 & tf & td & Hparse & Hs & Hf & _).
  destruct (store_fresh_key _ _ _ _ _ _ Hs Hnone
              (default_entry_port (drawn_port g)))
    as (x1 & Hx1 & Hd1 & Hn1).
  assert (Hx : exists x,
             entries (var_map g') !! "port" = Some x
             /\ (m_defaulted x = true ->
                 x = defaulted_value
                       (typed_value T_int
                          (any_int (int_of_size_t (drawn_port g))) None)
                       (any_int (int_of_size_t (drawn_port g))))
             /\ ((forall opts,
                    parse_command_line argv (cli (drawn_port g)) = ok opts ->
                    supplied opts "port" = None) ->
                 (forall path lines fopts,
                    fs path = Some lines ->
                    parse_config_file lines (cfg (drawn_port g)) = ok fopts ->
                    supplied fopts "port" = None) ->
                 m_defaulted x = true)).
  { apply ParseConfigFile_returned in Hf
      as [(_ & -> & _)|(lines & fopts & vm2 & Hfs & Hp & Hs2 & -> & _)].
    - exists x1. split; [exact Hx1|]. split; [exact Hd1|].
      intros Hcli _. now rewrite (Hn1 (Hcli _ Hparse)).
    - cbn [var_map notified set_configs set_var_map] in Hs2 |- *.
      destruct (store_held_key _ _ _ _ _ _ Hs2 Hx1) as (x2 & Hx2 & Hd2 & Hn2).
      exists x2. split; [exact Hx2|]. split.
      + intros Hd. rewrite (Hd2 Hd) in Hd |- *. exact (Hd1 Hd).
      + intros Hcli Hfile.
        rewrite (Hn2 (Hfile _ _ _ Hfs Hp)), (Hn1 (Hcli _ Hparse)).
        reflexivity. }
  destruct Hx as (x & Hx & Hd & Hn).
  exists (m_value x), (m_defaulted x). unfold resolved. rewrite Hx.
  split; [reflexivity|]. split; [|exact Hn].
  intros Hdef. exists (drawn_port g). rewrite (Hd Hdef), Hint.
  split; [reflexivity|]. split; [exact Hr|]. split; [reflexivity|].
  change (port_default (cli (drawn_port g)))
    with (Some (int_of_size_t (drawn_port g))).
  now rewrite Hint.
Qed.

(** ** A second run *)

(** C10 (as amended): a second run of [ParseArgs] on the map that a first
    run left does not replace it: every key that the first run took from
    its command line or its config file keeps the entry of the first run,
    whatever the command line and the files of the second run are and
    however it ends. *)
Theorem second_run_keeps_explicit_values
    fs1 argv1 b1 g1 t1 opts1 k fs2 argv2 r2 g2 t2 :
  parse_args fs1 argv1 initial_globals = (Returned b1, g1, t1) ->
  parse_command_line argv1 (cli port0) = ok opts1 ->
  is_Some (supplied opts1 k)
  \/ is_Some (supplied (file_options GetFullPath fs1 port0 opts1) k) ->
  parse_args fs2 argv2 g1 = (r2, g2, t2) ->
  is_Some (entries (var_map g1) !! k)
  /\ entries (var_map g2) !! k = entries (var_map g1) !! k.
Proof.
  intros Hrun1 Hparse1 Hk Hrun2.
  destruct (initial_merge _ _ _ _ _ _ k Hrun1 Hparse1) as (Hm & Hf & Hfile).
  destruct (initial_run _ _ _ _ _ _ Hrun1 Hparse1) as (vm1 & _ & _ & Hs & _).
  assert (Hx : is_Some (entries (var_map g1) !! k)).
  { rewrite Hm. destruct (supplied opts1 k) as [o|] eqn:Es.
    - destruct (cli_store_explicit argv1 port0 opts1 vm1 Hparse1 Hs k o Es)
        as (d & a & _ & _ & _ & ->). eauto.
    - destruct Hk as [[? ?]|[o Ef]]; [discriminate|]. rewrite Ef.
      destruct (Hfile o eq_refl Ef) as (d & a & _ & _ & ->). eauto. }
  split; [assumption|]. destruct Hx as [x Hx]. rewrite Hx.
  eapply final_survives; [exact Hrun2| |exact Hx].
  apply Hf. assumption.
Qed.

End Runs.

(** ** The program on concrete command lines *)

Ltac run_it := vm_compute; reflexivity.

(** [--port 1000 -c /etc/kovri.conf] with a file that sets [port = 1234]:
    the command line wins. *)
Lemma merge_precedence_witness :
  run_port_config
  = (Returned true, state_of run_port_config, snd run_port_config)
  /\ parse_command_line argv_port_config example_cli
     = ok (example_parse argv_port_config)
  /\ In (example_description "port") (options example_cli)
  /\ resolved (var_map (state_of run_port_config)) "port"
     = Some (any_int 1000, false).
Proof.
  assert (H1 : run_port_config
               = (Returned true, state_of run_port_config,
                  snd run_port_config)) by run_it.
  assert (H2 : parse_command_line argv_port_config example_cli
               = ok (example_parse argv_port_config)) by run_it.
  assert (H3 : In (example_description "port") (options example_cli))
    by (vm_compute; do 3 right; left; reflexivity).
  refine (conj H1 (conj H2 (conj H3 _))).
  pose proof (merge_precedence _ _ _ _ _ _ _ _ _ _ H1 H2 H3) as (H & _).
  vm_compute in H |- *. exact H.
Defined.

(** [-c /etc/kovri.conf]: that file is the one opened. *)
Lemma config_file_is_command_line_path_witness :
  run_port_config
  = (Returned true, state_of run_port_config, snd run_port_config)
  /\ parse_command_line argv_port_config example_cli
     = ok (example_parse argv_port_config)
  /\ store (example_parse argv_port_config) example_cli empty_map
     = (fst (store (example_parse argv_port_config) example_cli empty_map),
        None)
  /\ exists t', snd run_port_config
                = ifstream_open "/etc/kovri.conf" true :: t'.
Proof.
  assert (H1 : run_port_config
               = (Returned true, state_of run_port_config,
                  snd run_port_config)) by run_it.
  assert (H2 : parse_command_line argv_port_config example_cli
               = ok (example_parse argv_port_config)) by run_it.
  assert (H3 : store (example_parse argv_port_config) example_cli empty_map
               = (fst (store (example_parse argv_port_config) example_cli
                         empty_map), None)) by run_it.
  refine (conj H1 (conj H2 (conj H3 _))).
  destruct (config_file_is_command_line_path _ _ _ _ _ _ _ _ _ _ H1 H2 H3)
    as (t' & Ht & _).
  exists t'. exact Ht.
Defined.

(** The empty command line: [help] is not given and has no entry. *)
Lemma registry_keys_after_merge_witness :
  run_none = (Returned true, state_of run_none, snd run_none)
  /\ parse_command_line argv_none example_cli = ok (example_parse argv_none)
  /\ (is_Some (entries (var_map (state_of run_none)) !! "help")
      <-> is_Some (supplied (example_parse argv_none) "help")).
Proof.
  assert (H1 : run_none = (Returned true, state_of run_none, snd run_none))
    by run_it.
  assert (H2 : parse_command_line argv_none example_cli
               = ok (example_parse argv_none)) by run_it.
  refine (conj H1 (conj H2 _)).
  apply (registry_keys_after_merge _ _ _ _ _ _ _ _ _ H1 H2).
Defined.

(** C9, as stated, fails on the empty command line: the run returns and the
    registry key [help] has no entry in the map. *)
Lemma registry_keys_counterexample :
  run_none = (Returned true, state_of run_none, snd run_none)
  /\ ~ (forall d, In d (options example_cli) ->
          is_Some (entries (var_map (state_of run_none)) !! m_long_name d)).
Proof.
  split; [run_it|]. intros H.
  assert (Hin : In (example_description "help") (options example_cli))
    by (vm_compute; left; reflexivity).
  destruct (H _ Hin) as [x Hx]. vm_compute in Hx. discriminate.
Qed.

(** [--port 1000] on a machine without files. *)
Lemma missing_config_file_witness :
  parse_command_line argv_port_1000 example_cli
  = ok (example_parse argv_port_1000)
  /\ store (example_parse argv_port_1000) example_cli empty_map
     = (var_map (state_of run_port_1000), None)
  /\ no_files (cli_path example_full_path (example_parse argv_port_1000))
     = None
  /\ ParseConfigFile no_files example_kovri_conf example_cli initial_globals
     = (Returned tt, initial_globals,
        [ifstream_open example_kovri_conf false;
         cout_text ("Could not open " +:+ example_kovri_conf +:+ "!" +:+ nl)]).
Proof.
  assert (H1 : parse_command_line argv_port_1000 example_cli
               = ok (example_parse argv_port_1000)) by run_it.
  assert (H2 : store (example_parse argv_port_1000) example_cli empty_map
               = (var_map (state_of run_port_1000), None)) by run_it.
  assert (H3 : no_files (cli_path example_full_path
                           (example_parse argv_port_1000)) = None)
    by reflexivity.
  refine (conj H1 (conj H2 (conj H3 _))).
  pose proof (missing_config_file example_version _ _ _ _ _ _ H1 H2 H3)
    as (H & _).
  exact (H example_cli initial_globals).
Defined.

(** [--help --help-with basic]: the general help only. *)
Lemma help_before_help_with_witness :
  parse_command_line argv_help_both example_cli
  = ok (example_parse argv_help_both)
  /\ store (example_parse argv_help_both) example_cli empty_map
     = (var_map (state_of run_help_both), None)
  /\ ParseConfigFile no_files
       (cli_path example_full_path (example_parse argv_help_both))
       (config_options example_full_path (example_rand 0 9111 30777))
       (state_of run_help_both)
     = (Returned tt, state_of run_help_both,
        [ifstream_open example_kovri_conf false;
         cout_text ("Could not open " +:+ example_kovri_conf +:+ "!" +:+ nl)])
  /\ is_Some (supplied (example_parse argv_help_both) "help")
  /\ is_Some (supplied (example_parse argv_help_both) "help-with")
  /\ run_help_both
     = (Returned false, state_of run_help_both,
        [ifstream_open example_kovri_conf false;
         cout_text ("Could not open " +:+ example_kovri_conf +:+ "!" +:+ nl);
         cout_description (kovri example_version); cout_text nl]).
Proof.
  assert (H1 : parse_command_line argv_help_both example_cli
               = ok (example_parse argv_help_both)) by run_it.
  assert (H2 : store (example_parse argv_help_both) example_cli empty_map
               = (var_map (state_of run_help_both), None)) by run_it.
  assert (H3 : ParseConfigFile no_files
                 (cli_path example_full_path (example_parse argv_help_both))
                 (config_options example_full_path
                    (example_rand 0 9111 30777))
                 (notified (set_var_map (drawn initial_globals)
                              (var_map (state_of run_help_both))))
               = (Returned tt, state_of run_help_both,
                  [ifstream_open example_kovri_conf false;
                   cout_text ("Could not open " +:+ example_kovri_conf
                              +:+ "!" +:+ nl)])) by run_it.
  assert (H4 : is_Some (supplied (example_parse argv_help_both) "help"))
    by (vm_compute; eauto).
  assert (H5 : is_Some (supplied (example_parse argv_help_both) "help-with"))
    by (vm_compute; eauto).
  refine (conj H1 (conj H2 (conj _ (conj H4 (conj H5 _))))).
  - vm_compute. reflexivity.
  - exact (proj1 (help_before_help_with example_version example_full_path
                    example_rand _ _ _ _ _ _ H1 H2 H3 H4 H5)).
Defined.

(** [--help-with network]: the Network category. *)
Lemma help_with_selects_category_witness :
  parse_command_line argv_help_with example_cli
  = ok (example_parse argv_help_with)
  /\ store (example_parse argv_help_with) example_cli empty_map
     = (var_map (state_of run_help_with), None)
  /\ ParseConfigFile no_files
       (cli_path example_full_path (example_parse argv_help_with))
       (config_options example_full_path (example_rand 0 9111 30777))
       (state_of run_help_with)
     = (Returned tt, state_of run_help_with,
        [ifstream_open example_kovri_conf false;
         cout_text ("Could not open " +:+ example_kovri_conf +:+ "!" +:+ nl)])
  /\ supplied (example_parse argv_help_with) "help" = None
  /\ (exists o, supplied (example_parse argv_help_with) "help-with" = Some o
                /\ value o = ["network"])
  /\ run_help_with
     = (Returned false, state_of run_help_with,
        [ifstream_open example_kovri_conf false;
         cout_text ("Could not open " +:+ example_kovri_conf +:+ "!" +:+ nl);
         cout_description network]).
Proof.
  assert (H1 : parse_command_line argv_help_with example_cli
               = ok (example_parse argv_help_with)) by run_it.
  assert (H2 : store (example_parse argv_help_with) example_cli empty_map
               = (var_map (state_of run_help_with), None)) by run_it.
  assert (H3 : ParseConfigFile no_files
                 (cli_path example_full_path (example_parse argv_help_with))
                 (config_options example_full_path
                    (example_rand 0 9111 30777))
                 (notified (set_var_map (drawn initial_globals)
                              (var_map (state_of run_help_with))))
               = (Returned tt, state_of run_help_with,
                  [ifstream_open example_kovri_conf false;
                   cout_text ("Could not open " +:+ example_kovri_conf
                              +:+ "!" +:+ nl)])) by run_it.
  assert (H4 : supplied (example_parse argv_help_with) "help" = None)
    by run_it.
  assert (H5 : exists o,
             supplied (example_parse argv_help_with) "help-with" = Some o
             /\ value o = ["network"])
    by (eexists; split; [vm_compute; reflexivity|reflexivity]).
  refine (conj H1 (conj H2 (conj _ (conj H4 (conj H5 _))))).
  - vm_compute. reflexivity.
  - destruct H5 as (o & H5 & H6).
    destruct (help_with_selects_category example_version example_full_path
                example_rand _ _ _ _ _ _ _ _ H1 H2 H3 H4 H5 H6)
      as (shown & Hrun & _ & _ & _ & _ & Hn & _).
    rewrite (Hn eq_refl) in Hrun. exact Hrun.
Defined.

(** [--help -c /etc/kovri.conf]: the file is opened, then the help is
    shown. *)
Lemma help_displays_after_config_file_witness :
  parse_command_line argv_help_config example_cli
  = ok (example_parse argv_help_config)
  /\ store (example_parse argv_help_config) example_cli empty_map
     = (fst (store (example_parse argv_help_config) example_cli empty_map),
        None)
  /\ count (var_map (state_of run_help_config)) "help" = true
  /\ run_help_config
     = (Returned false, state_of run_help_config,
        [ifstream_open "/etc/kovri.conf" true;
         cout_description (kovri example_version); cout_text nl]).
Proof.
  assert (H1 : parse_command_line argv_help_config example_cli
               = ok (example_parse argv_help_config)) by run_it.
  assert (H2 : store (example_parse argv_help_config) example_cli empty_map
               = (fst (store (example_parse argv_help_config) example_cli
                         empty_map), None)) by run_it.
  assert (H3 : count (var_map (state_of run_help_config)) "help" = true)
    by run_it.
  refine (conj H1 (conj H2 (conj H3 _))).
  refine (help_displays_after_config_file example_version example_full_path
            example_rand example_files argv_help_config initial_globals
            _ _ (state_of run_help_config)
            [ifstream_open "/etc/kovri.conf" true] H1 H2 _ H3).
  vm_compute. reflexivity.
Defined.

(** C6, as stated, fails: on a run with [--help] the config file is read.
    With a readable file its values enter the map, here [port]; with an
    unreadable one the report is printed before the help. *)
Lemma help_run_reads_config_file :
  fst (fst run_help_config) = Returned false
  /\ resolved (var_map (state_of run_help_config)) "port"
     = Some (any_int 1234, false)
  /\ fst (fst run_help) = Returned false
  /\ snd run_help
     = [ifstream_open example_kovri_conf false;
        cout_text ("Could not open " +:+ example_kovri_conf +:+ "!" +:+ nl);
        cout_description (kovri example_version); cout_text nl].
Proof. repeat split; run_it. Qed.

(** [--bogus]: the parser throws and [ParseArgs] with it. *)
Lemma command_line_error_propagates_witness :
  is_UnknownOption (unknown_option "--bogus")
  || is_TypeMismatch (unknown_option "--bogus") = true
  /\ parse_command_line argv_bogus example_cli
     = throw (unknown_option "--bogus")
  /\ exists g',
      example_run no_files argv_bogus initial_globals
      = (Threw (unknown_option "--bogus"), g', [])
      /\ var_map g' = var_map initial_globals.
Proof.
  assert (H1 : is_UnknownOption (unknown_option "--bogus")
               || is_TypeMismatch (unknown_option "--bogus") = true)
    by reflexivity.
  assert (H2 : parse_command_line argv_bogus example_cli
               = throw (unknown_option "--bogus")) by run_it.
  refine (conj H1 (conj H2 _)).
  destruct (command_line_error_propagates example_version example_full_path
              example_rand no_files argv_bogus initial_globals _ H1
              (or_introl H2)) as (g' & Hrun & Hvm).
  exists g'. split; [exact Hrun|exact (Hvm H2)].
Defined.

(** C5 at the failing inputs [--bogus] and [--port notanumber]: the
    caller gets no [false], an exception leaves [ParseArgs]. *)
Lemma command_line_error_counterexample :
  fst (fst (example_run no_files argv_bogus initial_globals))
  = Threw (unknown_option "--bogus")
  /\ fst (fst (example_run no_files argv_bad_port initial_globals))
     = Threw (invalid_option_value "--port" "notanumber")
  /\ fst (fst (example_run no_files argv_bogus initial_globals))
     <> Returned false
  /\ fst (fst (example_run no_files argv_bad_port initial_globals))
     <> Returned false.
Proof.
  repeat split; try run_it; vm_compute; discriminate.
Qed.

Lemma example_rand_contract : RandInRange_contract example_rand.
Proof.
  intros n lo hi H. unfold example_rand.
  pose proof (Z.mod_pos_bound (Z.of_nat n) (hi - lo + 1)). lia.
Qed.

(** The sixth draw of a source that walks through the range, in a run
    with the empty command line and no config file. *)
Lemma port_default_in_range_witness :
  RandInRange_contract example_rand
  /\ run_sixth = (Returned true, state_of run_sixth, snd run_sixth)
  /\ entries (var_map sixth_start) !! "port" = None
  /\ resolved (var_map (state_of run_sixth)) "port" = Some (any_int 9116, true)
  /\ exists a dflt,
       resolved (var_map (state_of run_sixth)) "port" = Some (a, dflt)
       /\ (dflt = true ->
           exists p, a = any_int p /\ 9111 <= p <= 30777).
Proof.
  assert (H1 : run_sixth = (Returned true, state_of run_sixth, snd run_sixth))
    by run_it.
  assert (H2 : entries (var_map sixth_start) !! "port" = None) by reflexivity.
  assert (H3 : resolved (var_map (state_of run_sixth)) "port"
               = Some (any_int 9116, true)) by run_it.
  refine (conj example_rand_contract (conj H1 (conj H2 (conj H3 _)))).
  destruct (port_default_in_range example_version example_full_path
              example_rand no_files argv_none sixth_start _ _ _
              example_rand_contract H1 H2)
    as (a & dflt & Hres & Hdef & _).
  exists a, dflt. split; [exact Hres|].
  intros Hd. destruct (Hdef Hd) as (p & Hp & Hr & _).
  exists p. split; [exact Hp|exact Hr].
Defined.

(** [--port 1000], then a second run with [--port 2000]. *)
Lemma second_run_keeps_explicit_values_witness :
  run_port_1000
  = (Returned true, state_of run_port_1000, snd run_port_1000)
  /\ parse_command_line argv_port_1000 example_cli
     = ok (example_parse argv_port_1000)
  /\ is_Some (supplied (example_parse argv_port_1000) "port")
  /\ run_second = (fst (fst run_second), state_of run_second, snd run_second)
  /\ entries (var_map (state_of run_second)) !! "port"
     = entries (var_map (state_of run_port_1000)) !! "port".
Proof.
  assert (H1 : run_port_1000
               = (Returned true, state_of run_port_1000, snd run_port_1000))
    by run_it.
  assert (H2 : parse_command_line argv_port_1000 example_cli
               = ok (example_parse argv_port_1000)) by run_it.
  assert (H3 : is_Some (supplied (example_parse argv_port_1000) "port"))
    by (vm_compute; eauto).
  assert (H4 : run_second
               = (fst (fst run_second), state_of run_second, snd run_second))
    by run_it.
  refine (conj H1 (conj H2 (conj H3 (conj H4 _)))).
  exact (proj2 (second_run_keeps_explicit_values _ _ _ _ _ _ _ _ _ _ _ _ _
                  _ _ H1 H2 (or_introl H3) H4)).
Defined.

(** C10, as stated, fails: the second run is given [--port 2000] and
    returns, and [port] is still the 1000 of the first run; the same
    second run on an emptied map resolves [port] to 2000. *)
Lemma second_run_counterexample :
  fst (fst run_second) = Returned true
  /\ resolved (var_map (state_of run_second)) "port"
     = Some (any_int 1000, false)
  /\ resolved (var_map (state_of run_second_fresh)) "port"
     = Some (any_int 2000, false).
Proof. repeat split; run_it. Qed.

(** * Further properties of [Config.cpp] *)

(** ** More lemmas on the library *)

Lemma lexical_cast_int_range s z :
  lexical_cast_int s = Some z -> INT_MIN <= z <= INT_MAX.
Proof.
  unfold lexical_cast_int.
  assert (H : forall sign r,
            (if is_empty r then None
             else match digits_value 0 r with
                  | Some n =>
                      if (INT_MIN <=? sign * n) && (sign * n <=? INT_MAX)
                      then Some (sign * n) else None
                  | None => None
                  end) = Some z -> INT_MIN <= z <= INT_MAX).
  { intros sign r. destruct (is_empty r); [discriminate|].
    destruct (digits_value 0 r) as [n|]; [|discriminate].
    destruct (_ && _) eqn:E; [|discriminate]. intros [= <-].
    apply andb_prop in E as [E1 E2]. lia. }
  destruct s as [|c r]; [apply H|].
  destruct (Ascii.eqb_spec c "-") as [->|]; [apply H|].
  destruct (Ascii.eqb_spec c "+") as [->|]; [apply H|].
  destruct c as [[] [] [] [] [] [] [] []]; try apply H; congruence.
Qed.

Lemma typed_value_of_fits s tokens a :
  typed_value_of s tokens = Some a -> value_fits s a.
Proof.
  unfold typed_value_of, parse. simpl.
  destruct s as [z|T d st].
  - destruct tokens as [|x [|y l]]; intros [= <-]; exact I.
  - unfold validate. destruct T.
    + destruct (get_single_string "" tokens true); [discriminate|].
      repeat match goal with |- context [if ?c then _ else _] =>
               destruct c end; intros [= <-]; exact I.
    + destruct (get_single_string "" tokens false) as [e|x]; [discriminate|].
      destruct (lexical_cast_int x) as [z|] eqn:E; intros [= <-].
      simpl. eauto using lexical_cast_int_range.
    + destruct (get_single_string "" tokens false); intros [= <-]; exact I.
Qed.

Lemma int_of_size_t_range n : INT_MIN <= int_of_size_t n <= INT_MAX.
Proof.
  unfold int_of_size_t, INT_MIN, INT_MAX.
  pose proof (Z.mod_pos_bound n (2 ^ 32) ltac:(lia)).
  destruct (Z.leb_spec (n mod 2 ^ 32) (2 ^ 31 - 1)); lia.
Qed.

(** The options that the config file parser returns are registered long
    names with one value each. *)
Lemma config_file_options_keys desc lines :
  forall prefix opts,
    config_file_options desc prefix lines = ok opts ->
    forall o, In o opts ->
      allowed_option desc (string_key o) = true
      /\ unregistered o = false /\ exists x, value o = [x].
Proof.
  induction lines as [|line lines IH]; simpl; intros prefix opts H o Hin.
  - injection H as <-. contradiction.
  - destruct (is_empty _); [eauto|].
    destruct (section_name _); [eauto|].
    destruct (find_char "=" _) as [[n x]|]; [|discriminate].
    destruct (allowed_option desc _) eqn:Ea; [|discriminate].
    destruct (config_file_options desc prefix lines) as [e|r] eqn:Er;
      [discriminate|].
    injection H as <-. destruct Hin as [<-|Hin]; [|eauto].
    simpl. eauto.
Qed.

Lemma allowed_option_in desc s :
  allowed_option desc s = true ->
  exists d, In d (options desc) /\ m_long_name d = s.
Proof.
  unfold allowed_option. intros H.
  apply existsb_exists in H as (d & Hd & He).
  apply String.eqb_eq in He. eauto.
Qed.

Lemma default_entry_default all k x :
  default_entry all k = Some x ->
  exists d a, In d all /\ key d "" = k
              /\ apply_default (semantic d) = Some a
              /\ x = defaulted_value (semantic d) a.
Proof.
  induction all as [|d all IH]; simpl; [discriminate|].
  intros H.
  assert (Hrec : default_entry all k = Some x ->
                 exists d0 a, (d = d0 \/ In d0 all) /\ key d0 "" = k
                              /\ apply_default (semantic d0) = Some a
                              /\ x = defaulted_value (semantic d0) a).
  { intros H'. destruct (IH H') as (d0 & a & ? & ? & ? & ?).
    exists d0, a. auto. }
  destruct (negb (is_empty (key d ""))); simpl in H; [|auto].
  destruct (String.eqb_spec (key d "") k); [|auto].
  destruct (apply_default (semantic d)) as [a|] eqn:Ea; [|auto].
  injection H as <-. exists d, a. auto.
Qed.

Section More.

Variable KOVRI_VERSION : string.
Variable GetFullPath : string -> string.
Variable RandInRange : nat -> Z -> Z -> Z.

Abbreviation parse_args := (ParseArgs KOVRI_VERSION GetFullPath RandInRange).
Abbreviation cli port := (cli_options GetFullPath port).
Abbreviation cfg port := (config_options GetFullPath port).
Abbreviation drawn_port g := (RandInRange (rand_calls g) 9111 30777).
Abbreviation port0 := (RandInRange 0%nat 9111 30777).

Ltac registry_cases Hin :=
  cbv -[int_of_size_t] in Hin;
  repeat (destruct Hin as [<-|Hin]); [..|contradiction].

(** The declared defaults have the declared types. *)
Lemma registry_defaults_fit port d a :
  In d (options (cli port)) ->
  apply_default (semantic d) = Some a -> value_fits (semantic d) a.
Proof.
  intros Hin. pose proof (int_of_size_t_range port).
  registry_cases Hin; intros [= <-]; simpl; try exact I;
    unfold INT_MIN, INT_MAX in *; lia.
Qed.

(** What the config file supplies belongs to a description of the config
    file registry. *)
Lemma file_supplied_description fs port opts k o :
  supplied (file_options GetFullPath fs port opts) k = Some o ->
  exists d, In d (options (cfg port)) /\ m_long_name d = k.
Proof.
  unfold file_options, supplied. intros Hs.
  apply List.find_some in Hs as [Hin Hn].
  apply names_key in Hn as (Hk & _).
  destruct (fs _) as [lines|]; [|contradiction].
  destruct (parse_config_file lines (cfg port)) as [e|fopts] eqn:Ep;
    [contradiction|].
  destruct (config_file_options_keys _ _ _ _ Ep o Hin) as (Ha & _).
  rewrite Hk in Ha. now apply allowed_option_in.
Qed.

(** Every entry of the map after a first run that returns is the entry of
    a description of the registry, under its long name, holds a value of
    the declared type, and is explicit exactly when its key is final. *)
Lemma first_run_entry fs argv b g' t opts k x :
  parse_args fs argv initial_globals = (Returned b, g', t) ->
  parse_command_line argv (cli port0) = ok opts ->
  entries (var_map g') !! k = Some x ->
  exists d,
    In d (options (cli port0)) /\ m_long_name d = k
    /\ m_value_semantic x = Some (semantic d)
    /\ value_fits (semantic d) (m_value x)
    /\ (m_defaulted x = false <-> k ∈ m_final (var_map g')).
Proof.
  intros Hrun Hparse.
  destruct (initial_merge _ _ _ _ _ _ _ _ _ k Hrun Hparse) as (-> & Hf & Hfile).
  destruct (initial_run _ _ _ _ _ _ _ _ _ Hrun Hparse)
    as (vm1 & _ & _ & Hs & _).
  destruct (supplied opts k) as [o|] eqn:Es.
  - destruct (cli_store_explicit _ argv port0 opts vm1 Hparse Hs k o Es)
      as (d & a & Hd & Hk & Ha & ->).
    intros [= <-]. exists d. simpl.
    repeat split; eauto using typed_value_of_fits.
    intros _. apply Hf. eauto.
  - destruct (supplied (file_options GetFullPath fs port0 opts) k)
      as [o|] eqn:Ef.
    + destruct (Hfile o eq_refl eq_refl) as (d & a & Hfd & Ha & ->).
      destruct (file_supplied_description _ _ _ _ _ Ef) as (d' & Hd' & Hk').
      pose proof (config_options_in_cli _ _ _ Hd') as Hc.
      destruct (registry_config_entry _ _ _ Hc) as (Hfind & _).
      destruct (config_options_no_help GetFullPath port0) as [Hh Hw].
      rewrite Hk' in Hfind.
      assert (d' = d) as ->.
      { destruct Hfind as [E|[E|E]]; subst k; congruence. }
      intros [= <-]. exists d. simpl.
      repeat split; eauto using typed_value_of_fits.
      intros _. apply Hf. eauto.
    + intros Hx.
      apply default_entry_default in Hx as (d & a & Hd & Hk & Ha & ->).
      destruct (registry_entry _ _ _ Hd) as (_ & Hkey & _).
      rewrite Hkey in Hk. exists d. simpl.
      repeat split; eauto using registry_defaults_fit; try discriminate.
      intros Hin. apply Hf in Hin as [[? ?]|[? ?]]; discriminate.
Qed.

End More.

(** ** Further properties of the runs *)

(** When [kt] is the one entry that is copied into the global of [t], the
    global holds that entry's text after [notify]. *)
Lemma notified_global t kt g x s :
  (forall k y s', entries (var_map g) !! k = Some y ->
                  notify_target y = Some (t, s') -> k = kt) ->
  entries (var_map g) !! kt = Some x ->
  notify_target x = Some (t, s) ->
  global_of t (notified g) = s.
Proof.
  assert (Hsel : global_of t (notified g)
                 = (match t with to_kovri_config => fst | _ => snd end)
                     (map_fold notify_value (kovri_config g, tunnels_config g)
                        (entries (var_map g)))) by now destruct t.
  rewrite Hsel. clear Hsel.
  generalize (kovri_config g, tunnels_config g). intros b.
  revert x s. generalize (entries (var_map g)).
  apply (map_fold_weak_ind
    (fun r (m : gmap string variable_value) =>
       forall x s,
         (forall k y s', m !! k = Some y ->
                         notify_target y = Some (t, s') -> k = kt) ->
         m !! kt = Some x -> notify_target x = Some (t, s) ->
         (match t with to_kovri_config => fst | _ => snd end) r = s)).
  - intros x s _ H. now rewrite lookup_empty in H.
  - intros i y m r Hi IH x s Hu Hx Ht.
    rewrite notify_value_target.
    destruct (decide (i = kt)) as [->|Hne].
    + rewrite lookup_insert_eq in Hx. injection Hx as ->. rewrite Ht.
      now destruct t.
    + rewrite lookup_insert_ne in Hx by assumption.
      assert (Hr : (match t with to_kovri_config => fst | _ => snd end) r = s).
      { apply (IH x s); try assumption.
        intros k z s' Hk. apply Hu. rewrite lookup_insert_ne; [assumption|].
        intros ->. congruence. }
      destruct (notify_target y) as [[t' s']|] eqn:Ey; [|assumption].
      assert (t' <> t).
      { intros ->. apply Hne. eapply Hu; [apply lookup_insert_eq|eassumption]. }
      destruct t, t'; simpl; congruence.
Qed.

(** [store] never removes an entry, and leaves alone an entry that no
    option of the source names, however the call ends. *)
Lemma store_options_domain desc final k opts :
  forall m nf m' r,
    store_options desc final opts m nf = (m', r) ->
    is_Some (m !! k) -> is_Some (m' !! k).
Proof.
  induction opts as [|o opts IH]; simpl; intros m nf m' r H Hk.
  - inversion H; subst; assumption.
  - destruct (is_empty (string_key o)); [eauto|].
    destruct (unregistered o); [eauto|].
    case_bool_decide; [eauto|].
    destruct (find desc (string_key o) false) as [e|d];
      [inversion H; subst; assumption|].
    assert (Hins : forall y, is_Some (<[string_key o := y]> m !! k)).
    { intros y. destruct (decide (string_key o = k)) as [->|Hne].
      - rewrite lookup_insert_eq. eauto.
      - now rewrite lookup_insert_ne. }
    destruct (parse _ _ _ _) as [e|a]; [inversion H; subst; apply Hins|].
    eapply IH; [exact H|apply Hins].
Qed.

Lemma store_domain opts desc xm vm' err k :
  store opts desc xm = (vm', err) ->
  is_Some (entries xm !! k) -> is_Some (entries vm' !! k).
Proof.
  unfold store.
  destruct (store_options _ _ _ _ _) as [m [e|nf]] eqn:E;
    intros [= <- <-] Hk; simpl.
  - eapply store_options_domain; eauto.
  - rewrite store_defaults_lookup.
    destruct (store_options_domain _ _ k _ _ _ _ _ E Hk) as [y ->]. eauto.
Qed.

Lemma store_unsupplied opts desc xm vm' err k x :
  store opts desc xm = (vm', err) ->
  supplied opts k = None -> entries xm !! k = Some x ->
  entries vm' !! k = Some x.
Proof.
  unfold store. intros H Hs Hx.
  pose proof (supplied_none _ _ Hs) as Hn.
  destruct (store_options _ _ _ _ _) as [m [e|nf]] eqn:E;
    injection H as <- <-; simpl.
  - erewrite store_options_keeps by eauto. assumption.
  - rewrite store_defaults_lookup.
    erewrite store_options_keeps by eauto. now rewrite Hx.
Qed.

Lemma store_unnamed opts desc xm vm' err k :
  store opts desc xm = (vm', err) ->
  (forall o, In o opts -> names k o = false) ->
  default_entry (options desc) k = None ->
  entries vm' !! k = entries xm !! k.
Proof.
  unfold store. intros H Hn Hdef.
  destruct (store_options _ _ _ _ _) as [m [e|nf]] eqn:E;
    injection H as <- <-; cbn [entries].
  - eapply store_options_keeps; eauto.
  - rewrite store_defaults_lookup, Hdef.
    erewrite store_options_keeps by eauto.
    now destruct (entries xm !! k).
Qed.

(** *** Tokens that are no options *)

Lemma style_parsers_plain desc tok rest :
  plain tok = true -> style_parsers desc tok rest = ok not_applicable.
Proof.
  destruct tok as [|c r]; [reflexivity|].
  destruct c as [[] [] [] [] [] [] [] []]; try discriminate; reflexivity.
Qed.

Lemma followed_option_plain desc tok :
  plain tok = true -> followed_option desc tok = ok false.
Proof.
  intros H. unfold followed_option. now rewrite style_parsers_plain.
Qed.

Lemma run_loop_plain desc toks :
  Forall (fun tok => plain tok = true) toks ->
  forall n, (length toks <= n)%nat ->
    run_loop n desc toks = ok (map positional toks).
Proof.
  induction 1 as [|tok toks Hp _ IH]; intros n Hn.
  - now destruct n.
  - destruct n as [|n]; [simpl in Hn; lia|]. simpl in *.
    rewrite style_parsers_plain by assumption.
    now rewrite IH by lia.
Qed.

Lemma store_options_positional desc final toks m nf :
  store_options desc final (map positional toks) m nf = (m, ok nf).
Proof. induction toks as [|tok toks IH]; simpl; auto. Qed.

Lemma store_positional toks desc xm :
  store (map positional toks) desc xm = store [] desc xm.
Proof. unfold store. now rewrite store_options_positional. Qed.

(** One option that takes its value from the next token. *)
Lemma parse_option_with_value desc prog tok o d v :
  style_parsers desc tok [v] = ok (parsed [o] [v]) ->
  is_empty (string_key o) = false -> value o = [] ->
  find_nothrow desc (string_key o) true = ok (Some d) ->
  min_tokens (semantic d) = 1%nat ->
  plain v = true ->
  parse_command_line [prog; tok; v] desc
  = ok [{| string_key := key d (string_key o); value := [v];
           original_tokens := (original_tokens o ++ [v])%list;
           unregistered := unregistered o |}].
Proof.
  intros Hsp Hk Hv Hf Hmin Hp.
  unfold parse_command_line. cbn [tail length run_loop].
  rewrite Hsp. cbn [finish_options]. unfold finish_option.
  rewrite Hk, Hf, Hmin, Hv. cbn [length Nat.leb Nat.add Nat.eqb negb andb
                                  Nat.sub value grab_tokens].
  rewrite followed_option_plain by assumption.
  cbn [string_key value original_tokens unregistered app]. reflexivity.
Qed.

(** *** Exact lookups *)

Lemma matches_exactly_names name d :
  matches_exactly name d = true -> In name (names_of d).
Proof.
  unfold matches_exactly, match_option, names_of. simpl.
  destruct (is_empty (m_long_name d)).
  - destruct (String.eqb_spec (m_short_name d) name); [auto|discriminate].
  - destruct (String.eqb_spec (m_long_name d) name); [auto|].
    destruct (String.eqb_spec (m_short_name d) name); [auto|discriminate].
Qed.

Lemma last_cons {A} (l : list A) :
  forall x d, List.last (x :: l) d = List.last l x.
Proof.
  induction l as [|y l IH]; intros x d; [reflexivity|].
  change (List.last (x :: y :: l) d) with (List.last (y :: l) d).
  now rewrite !IH.
Qed.

Lemma find_fold_exact name l :
  forall st,
    let st' := fold_left (find_step name false) l st in
    approximate_matches st' = approximate_matches st
    /\ full_matches st'
       = (full_matches st
          ++ map (fun d => key d name) (List.filter (matches_exactly name) l))%list
    /\ found st'
       = List.last (map Some (List.filter (matches_exactly name) l)) (found st).
Proof.
  induction l as [|d l IH]; intros st; cbn [fold_left List.filter map].
  - cbn. now rewrite app_nil_r.
  - destruct (IH (find_step name false st d)) as (Ha & Hfm & Hfd).
    cbv zeta. rewrite Ha, Hfm, Hfd. clear IH Ha Hfm Hfd.
    unfold find_step, matches_exactly.
    assert (Hna : match_option d name false <> approximate_match).
    { unfold match_option. cbn [andb].
      destruct (is_empty (m_long_name d));
        [|destruct (String.eqb (m_long_name d) name)];
        try destruct (String.eqb (m_short_name d) name); discriminate. }
    destruct (match_option d name false); [|..|contradiction];
      cbn [approximate_matches full_matches found map].
    + split; [reflexivity|]. split; reflexivity.
    + rewrite <- app_assoc. split; [reflexivity|]. split; [reflexivity|].
      now rewrite last_cons.
Qed.

(** Among descriptions whose names are all different, at most one matches
    a name that is not empty. *)
Lemma NoDup_matches name l :
  NoDup (List.filter (fun s => negb (is_empty s)) (flat_map names_of l)) ->
  is_empty name = false ->
  (length (List.filter (matches_exactly name) l) <= 1)%nat.
Proof.
  intros Hnd Hne.
  assert (Hin : forall l', (forall d, In d l' -> In d l \/ True) ->
            forall d, In d l' -> matches_exactly name d = true ->
            In name (List.filter (fun s => negb (is_empty s))
                       (flat_map names_of l'))).
  { intros l' _ d Hd Hm. apply List.filter_In. split.
    - apply in_flat_map. eauto using matches_exactly_names.
    - now rewrite Hne. }
  clear Hin.
  induction l as [|d l IH]; [simpl; lia|].
  cbn [flat_map] in Hnd. rewrite List.filter_app in Hnd.
  apply NoDup_app in Hnd as (Hd & Hdisj & Hl).
  cbn [List.filter]. destruct (matches_exactly name d) eqn:Em; [|auto].
  assert (Hnone : List.filter (matches_exactly name) l = []).
  { destruct (List.filter (matches_exactly name) l) as [|d' r] eqn:Ef;
      [reflexivity|].
    exfalso.
    assert (Hd' : In d' (List.filter (matches_exactly name) l))
      by (rewrite Ef; left; reflexivity).
    apply List.filter_In in Hd' as [Hd' Hm'].
    apply (Hdisj name).
    - apply list_elem_of_In, List.filter_In.
      split; [now apply matches_exactly_names|now rewrite Hne].
    - apply list_elem_of_In, List.filter_In. split; [|now rewrite Hne].
      apply in_flat_map. eauto using matches_exactly_names. }
  rewrite Hnone. simpl. lia.
Qed.

Lemma find_nothrow_exact desc name :
  NoDup (List.filter (fun s => negb (is_empty s))
           (flat_map names_of (options desc))) ->
  is_empty name = false ->
  exists r,
    find_nothrow desc name false = ok r
    /\ forall d, In d (options desc) -> matches_exactly name d = true ->
                 r = Some d.
Proof.
  intros Hnd Hne. unfold find_nothrow.
  generalize (options desc) Hnd. clear Hnd. intros l Hnd.
  destruct (find_fold_exact name l
              {| found := None; had_full_match := false;
                 approximate_matches := []; full_matches := [] |})
    as (Ha & Hfm & Hfd).
  cbv zeta in Ha, Hfm, Hfd. rewrite Ha, Hfm, Hfd.
  cbn [approximate_matches full_matches found app length].
  pose proof (NoDup_matches name _ Hnd Hne) as Hle.
  rewrite length_map.
  destruct (Nat.ltb_spec 1 (length (List.filter (matches_exactly name) l)));
    [lia|].
  rewrite andb_false_r. eexists. split; [reflexivity|].
  intros d Hd Hk.
  assert (Hm : In d (List.filter (matches_exactly name) l)).
  { apply List.filter_In. split; assumption. }
  destruct (List.filter (matches_exactly name) l)
    as [|d1 [|d2 r]]; [contradiction| |simpl in Hle; lia].
  destruct Hm as [->|[]]. reflexivity.
Qed.

Section Further.

Variable KOVRI_VERSION : string.
Variable GetFullPath : string -> string.
Variable RandInRange : nat -> Z -> Z -> Z.

Abbreviation parse_args := (ParseArgs KOVRI_VERSION GetFullPath RandInRange).
Abbreviation cli port := (cli_options GetFullPath port).
Abbreviation cfg port := (config_options GetFullPath port).
Abbreviation drawn_port g := (RandInRange (rand_calls g) 9111 30777).
Abbreviation port0 := (RandInRange 0%nat 9111 30777).

Ltac registry_cases Hin :=
  cbv -[int_of_size_t] in Hin;
  repeat (destruct Hin as [<-|Hin]); [..|contradiction].

(** Two descriptions of the registry with one long name are one. *)
Lemma registry_long_name_inj port d d' :
  In d (options (cli port)) -> In d' (options (cli port)) ->
  m_long_name d = m_long_name d' -> d = d'.
Proof.
  intros Hd Hd' E.
  destruct (registry_entry GetFullPath port d Hd) as (Hf & _).
  destruct (registry_entry GetFullPath port d' Hd') as (Hf' & _).
  rewrite E in Hf. congruence.
Qed.

(** X1: after a first run of [ParseArgs] that returns, the value resolved
    for a registry key has the type the registry declares for it: a bool
    for a [value<bool>], an int of the range of [int] for a [value<int>],
    a string for a [value<std::string>] and for [help-with]. *)
Theorem resolved_values_have_declared_type fs argv b g' t opts d a p :
  parse_args fs argv initial_globals = (Returned b, g', t) ->
  parse_command_line argv (cli port0) = ok opts ->
  In d (options (cli port0)) ->
  resolved (var_map g') (m_long_name d) = Some (a, p) ->
  value_fits (semantic d) a.
Proof.
  intros Hrun Hparse Hd. unfold resolved.
  destruct (entries (var_map g') !! m_long_name d) as [x|] eqn:Ex;
    [|discriminate].
  intros [= <- _].
  destruct (first_run_entry _ _ _ _ _ _ _ _ _ _ _ Hrun Hparse Ex)
    as (d' & Hd' & Hk & _ & Hfit & _).
  now rewrite (registry_long_name_inj _ _ _ Hd Hd' (eq_sym Hk)).
Qed.

(** X2: after a first run of [ParseArgs] that returns, [var_map] has
    entries for long names of the registry only. *)
Theorem entries_only_for_registry_keys fs argv b g' t opts k :
  parse_args fs argv initial_globals = (Returned b, g', t) ->
  parse_command_line argv (cli port0) = ok opts ->
  is_Some (entries (var_map g') !! k) ->
  In k (map m_long_name (options (cli port0))).
Proof.
  intros Hrun Hparse [x Hx].
  destruct (first_run_entry _ _ _ _ _ _ _ _ _ _ _ Hrun Hparse Hx)
    as (d & Hd & <- & _).
  now apply in_map.
Qed.

Lemma registry_store_targets port d T a st :
  In d (options (cli port)) ->
  semantic d = typed_value T a (Some st) ->
  m_long_name d = match st with
                  | to_kovri_config => "config"
                  | to_tunnels_config => "tunnelscfg"
                  end
  /\ T = T_string.
Proof.
  intros Hin. registry_cases Hin; try discriminate; intros [= <- <- <-]; auto.
Qed.

Lemma registry_path_options port :
  exists dc dt,
    In dc (options (cfg port)) /\ m_long_name dc = "config"
    /\ semantic dc = typed_value T_string (any_string (GetFullPath "kovri.conf"))
                       (Some to_kovri_config)
    /\ In dt (options (cfg port)) /\ m_long_name dt = "tunnelscfg"
    /\ semantic dt = typed_value T_string
                       (any_string (GetFullPath "tunnels.cfg"))
                       (Some to_tunnels_config).
Proof.
  do 2 eexists.
  split; [cbv -[int_of_size_t]; do 16 right; left; reflexivity|].
  split; [reflexivity|]. split; [reflexivity|].
  split; [cbv -[int_of_size_t]; do 17 right; left; reflexivity|].
  split; reflexivity.
Qed.

(** Every key with a declared default has an entry after a first run. *)
Lemma first_run_has_defaults fs argv b g' t opts d :
  parse_args fs argv initial_globals = (Returned b, g', t) ->
  parse_command_line argv (cli port0) = ok opts ->
  In d (options (cfg port0)) ->
  is_Some (entries (var_map g') !! m_long_name d).
Proof.
  intros Hrun Hparse Hd.
  destruct (initial_resolved _ _ _ _ _ _ _ _ _ d Hrun Hparse
              (config_options_in_cli _ _ _ Hd)) as (Hr & Hsrc & _).
  cbv zeta in Hr, Hsrc. unfold resolved in Hr.
  destruct (entries (var_map g') !! m_long_name d); [eauto|].
  exfalso.
  destruct (supplied opts (m_long_name d)) as [o|] eqn:Es.
  { destruct (Hsrc o (or_introl eq_refl)) as [? E]. congruence. }
  destruct (supplied (file_options GetFullPath fs port0 opts)
              (m_long_name d)) as [o|] eqn:Ef.
  { destruct (Hsrc o (or_intror (conj eq_refl eq_refl))) as [? E]. congruence. }
  unfold from_default in Hr.
  destruct (config_options_have_defaults _ _ _ Hd) as [a Ea].
  rewrite Ea in Hr. discriminate.
Qed.

(** The state in which a run that returns ends is one that [notify]
    left. *)
Lemma returned_state_notified fs argv g b g' t :
  parse_args fs argv g = (Returned b, g', t) ->
  exists gx, g' = notified gx /\ var_map gx = var_map g'.
Proof.
  intros Hrun.
  apply ParseArgs_returned in Hrun
    as (opts & vm1 & tf & td & _ & _ & Hf & _).
  apply ParseConfigFile_returned in Hf
    as [(_ & -> & _)|(lines & fopts & vm2 & _ & _ & _ & -> & _)];
    eexists; split; reflexivity.
Qed.

(** X3: after a first run of [ParseArgs] that returns, the globals
    [kovri_config] and [tunnels_config] hold the strings that [var_map]
    resolves for [config] and [tunnelscfg]. *)
Theorem globals_hold_resolved_paths fs argv b g' t opts :
  parse_args fs argv initial_globals = (Returned b, g', t) ->
  parse_command_line argv (cli port0) = ok opts ->
  exists pc pt,
    resolved (var_map g') "config" = Some (any_string (kovri_config g'), pc)
    /\ resolved (var_map g') "tunnelscfg"
       = Some (any_string (tunnels_config g'), pt).
Proof.
  intros Hrun Hparse.
  destruct (returned_state_notified _ _ _ _ _ _ Hrun) as (gx & Hg & Hvm).
  destruct (registry_path_options port0)
    as (dc & dt & Hdc & Hkc & Hsc & Hdt & Hkt & Hst).
  assert (Hgl : forall st (d : option_description) T a0,
            In d (options (cfg port0)) ->
            semantic d = typed_value T a0 (Some st) ->
            exists p,
              resolved (var_map g') (m_long_name d)
              = Some (any_string (global_of st g'), p)).
  { intros st d T a0 Hd Hsem.
    destruct (first_run_has_defaults _ _ _ _ _ _ _ Hrun Hparse Hd) as [x Hx].
    destruct (first_run_entry _ _ _ _ _ _ _ _ _ _ _ Hrun Hparse Hx)
      as (d' & Hd' & Hk & Hsx & Hfit & _).
    pose proof (registry_long_name_inj _ _ _ Hd'
                  (config_options_in_cli _ _ _ Hd) Hk) as ->.
    destruct (registry_store_targets _ _ _ _ _
                (config_options_in_cli _ _ _ Hd) Hsem) as [Hname ->].
    rewrite Hsem in Hfit, Hsx. simpl in Hfit.
    destruct (m_value x) as [| | |c] eqn:Ev; try contradiction.
    assert (Ht : notify_target x = Some (st, c)).
    { unfold notify_target. now rewrite Hsx, Ev. }
    exists (m_defaulted x). unfold resolved. rewrite Hx, Ev.
    do 3 f_equal. rewrite Hg. symmetry.
    apply (notified_global st (m_long_name d) gx x c);
      [|now rewrite Hvm|assumption].
    intros k y s' Hy Hty. rewrite Hvm in Hy.
    destruct (first_run_entry _ _ _ _ _ _ _ _ _ _ _ Hrun Hparse Hy)
      as (dy & Hdy & Hky & Hsy & _).
    unfold notify_target in Hty. rewrite Hsy in Hty.
    destruct (semantic dy) as [z|Ty ay [sty|]] eqn:Esy; try discriminate.
    destruct (m_value y); try discriminate. injection Hty as -> _.
    destruct (registry_store_targets _ _ _ _ _ Hdy Esy) as [Hn _].
    congruence. }
  destruct (Hgl _ _ _ _ Hdc Hsc) as [pc Hc].
  destruct (Hgl _ _ _ _ Hdt Hst) as [pt Ht].
  rewrite Hkc in Hc. rewrite Hkt in Ht. eauto.
Qed.

(** *** Returning [true] *)

Lemma initial_help_with_count fs argv b g' t opts :
  parse_args fs argv initial_globals = (Returned b, g', t) ->
  parse_command_line argv (cli port0) = ok opts ->
  count (var_map g') "help-with"
  = bool_decide (is_Some (supplied opts "help-with")).
Proof.
  intros Hrun Hparse.
  destruct (supplied opts "help-with") as [o|] eqn:Es.
  - destruct (initial_help_with _ _ _ _ _ _ _ _ _ _ Hrun Hparse Es)
      as (x & Hx & _).
    unfold count. rewrite Hx.
    now rewrite bool_decide_eq_true_2 by eauto.
  - destruct (config_options_no_help GetFullPath port0) as [_ Hw].
    destruct (default_entry_help GetFullPath port0) as [_ Dw].
    unfold count.
    rewrite (initial_flag _ _ _ _ _ _ _ _ _ _ Hrun Hparse Hw Dw), Es.
    now rewrite bool_decide_eq_false_2 by (intros [? ?]; discriminate).
Qed.

(** X4: a first run whose command line is parsed and stored and whose
    config file pass returns ends in [return true], with no output after
    the config file pass, exactly when the command line gives neither
    [help] nor [help-with]. *)
Theorem proceeds_exactly_without_help_flags fs argv opts vm1 g2 tf :
  parse_command_line argv (cli port0) = ok opts ->
  store opts (cli port0) empty_map = (vm1, None) ->
  ParseConfigFile fs (cli_path GetFullPath opts) (cfg port0)
    (notified (set_var_map (drawn initial_globals) vm1))
  = (Returned tt, g2, tf) ->
  parse_args fs argv initial_globals = (Returned true, g2, tf)
  <-> supplied opts "help" = None /\ supplied opts "help-with" = None.
Proof.
  intros Hparse Hs Hf.
  destruct (first_run_returns KOVRI_VERSION _ _ _ _ _ _ _ _ Hparse Hs Hf)
    as (b & td & Hrun & Hd).
  pose proof (initial_help _ _ _ _ _ _ _ _ _ Hrun Hparse) as Hh.
  pose proof (initial_help_with_count _ _ _ _ _ _ Hrun Hparse) as Hw.
  split.
  - intros Hrun'. rewrite Hrun in Hrun'. injection Hrun' as -> _.
    destruct (count (var_map g2) "help") eqn:Eh.
    { rewrite display_help in Hd by assumption. discriminate. }
    destruct (count (var_map g2) "help-with") eqn:Ew.
    { unfold count in Ew.
      destruct (entries (var_map g2) !! "help-with") as [x|] eqn:Ex;
        [|discriminate].
      symmetry in Hw. apply bool_decide_eq_true_1 in Hw as [o Ho].
      destruct (initial_help_with _ _ _ _ _ _ _ _ _ _ Hrun Hparse Ho)
        as (x' & Hx' & Hv).
      rewrite Ex in Hx'. injection Hx' as <-.
      erewrite display_help_with in Hd by eassumption. discriminate. }
    symmetry in Hh, Hw.
    apply bool_decide_eq_false_1 in Hh. apply bool_decide_eq_false_1 in Hw.
    split.
    + destruct (supplied opts "help"); [exfalso; eauto|reflexivity].
    + destruct (supplied opts "help-with"); [exfalso; eauto|reflexivity].
  - intros [Eh Ew]. rewrite Eh in Hh. rewrite Ew in Hw.
    rewrite bool_decide_eq_false_2 in Hh by (intros [? ?]; discriminate).
    rewrite bool_decide_eq_false_2 in Hw by (intros [? ?]; discriminate).
    rewrite display_none in Hd by assumption.
    injection Hd as <- <-. now rewrite app_nil_r in Hrun.
Qed.

(** *** Errors of the config file *)

(** X5: an exception that leaves [ParseConfigFile] leaves [ParseArgs] too,
    with the state of that moment; the file was opened, and nothing is
    printed. *)
Theorem config_file_error_propagates fs argv g opts vm1 e g2 tf :
  parse_command_line argv (cli (drawn_port g)) = ok opts ->
  store opts (cli (drawn_port g)) (var_map g) = (vm1, None) ->
  ParseConfigFile fs
    (kovri_config (notified (set_var_map (drawn g) vm1)))
    (cfg (drawn_port g)) (notified (set_var_map (drawn g) vm1))
  = (Threw e, g2, tf) ->
  parse_args fs argv g = (Threw e, g2, tf)
  /\ tf = [ifstream_open
             (kovri_config (notified (set_var_map (drawn g) vm1))) true].
Proof.
  intros Hparse Hs Hf. rewrite ParseArgs_unfold. cbv zeta.
  rewrite Hparse, Hs, Hf. split; [reflexivity|].
  rewrite ParseConfigFile_run in Hf.
  destruct (fs _) as [lines|]; [|discriminate].
  destruct (parse_config_file lines _) as [e'|fopts];
    [now injection Hf as _ _ <-|].
  destruct (store fopts _ _) as [vm2 [e'|]]; [|discriminate].
  now injection Hf as _ _ <-.
Qed.

(** *** What [ParseConfigFile] leaves alone *)

(** X6: [ParseConfigFile] changes no entry of [var_map] that an earlier
    [store] made final, whatever the file holds and however the call
    ends. *)
Theorem ParseConfigFile_keeps_final_values fs path desc g r g' t k x :
  ParseConfigFile fs path desc g = (r, g', t) ->
  k ∈ m_final (var_map g) -> entries (var_map g) !! k = Some x ->
  entries (var_map g') !! k = Some x /\ k ∈ m_final (var_map g').
Proof.
  rewrite ParseConfigFile_run. intros H Hf Hx.
  destruct (fs path) as [lines|]; [|injection H as _ <- _; auto].
  destruct (parse_config_file lines desc) as [e|fopts];
    [injection H as _ <- _; auto|].
  destruct (store fopts desc (var_map g)) as [vm2 err] eqn:Es.
  destruct (store_keeps_final _ _ _ _ _ _ _ Es Hf Hx).
  destruct err; injection H as _ <- _; auto.
Qed.

(** X7: [ParseConfigFile] with the registry [config_options] neither adds
    nor changes the entries [help] and [help-with], whatever the file
    holds and however the call ends. *)
Theorem ParseConfigFile_leaves_help_flags fs path port g r g' t k :
  ParseConfigFile fs path (cfg port) g = (r, g', t) ->
  k = "help" \/ k = "help-with" ->
  entries (var_map g') !! k = entries (var_map g) !! k.
Proof.
  rewrite ParseConfigFile_run. intros H Hk.
  destruct (fs path) as [lines|]; [|now injection H as _ <- _].
  destruct (parse_config_file lines (cfg port)) as [e|fopts] eqn:Ep;
    [now injection H as _ <- _|].
  assert (Hn : forall o, In o fopts -> names k o = false).
  { intros o Hin. destruct (names k o) eqn:En; [|reflexivity].
    apply names_key in En as (Ek & _).
    destruct (config_file_options_keys _ _ _ _ Ep o Hin) as (Ha & _).
    rewrite Ek in Ha. destruct Hk as [-> | ->]; discriminate Ha. }
  assert (Hdef : default_entry (options (cfg port)) k = None).
  { rewrite <- default_entry_cli.
    destruct (default_entry_help GetFullPath port).
    destruct Hk as [-> | ->]; assumption. }
  destruct (store fopts (cfg port) (var_map g)) as [vm2 err] eqn:Es.
  pose proof (store_unnamed _ _ _ _ _ _ Es Hn Hdef) as Hkeep.
  destruct err; injection H as _ <- _; exact Hkeep.
Qed.

(** *** What a run leaves alone *)

(** X8: a run of [ParseArgs] on any state keeps every entry of [var_map]
    whose key neither its command line nor a config file supplies, however
    it ends; a default drawn or declared by this run does not replace
    it. *)
Theorem unsupplied_entry_is_kept fs argv g r g' t k x :
  parse_args fs argv g = (r, g', t) ->
  entries (var_map g) !! k = Some x ->
  (forall opts, parse_command_line argv (cli (drawn_port g)) = ok opts ->
                supplied opts k = None) ->
  (forall path lines fopts,
     fs path = Some lines ->
     parse_config_file lines (cfg (drawn_port g)) = ok fopts ->
     supplied fopts k = None) ->
  entries (var_map g') !! k = Some x.
Proof.
  rewrite ParseArgs_unfold. cbv zeta. intros Hrun Hx Hcli Hfile.
  destruct (parse_command_line _ _) as [e|opts];
    [now injection Hrun as _ <- _|].
  destruct (store opts _ _) as [vm1 err] eqn:Es.
  pose proof (store_unsupplied _ _ _ _ _ _ _ Es (Hcli _ eq_refl) Hx) as Hx1.
  destruct err as [e|]; [now injection Hrun as _ <- _|].
  rewrite ParseConfigFile_run in Hrun.
  assert (Hd : forall g2 tf,
            entries (var_map g2) !! k = Some x ->
            (let '(r3, g3, td) :=
               display KOVRI_VERSION GetFullPath (drawn_port g) (var_map g2) g2
             in (r3, g3, (tf ++ td)%list)) = (r, g', t) ->
            entries (var_map g') !! k = Some x).
  { intros g2 tf Hg2.
    destruct (display _ _ _ _ _) as [[r3 g3] td] eqn:Ed.
    apply display_state in Ed as ->. now intros [= _ <- _]. }
  destruct (fs _) as [lines|] eqn:Efs; [|eapply Hd; [|exact Hrun]; exact Hx1].
  destruct (parse_config_file lines _) as [e|fopts] eqn:Ep;
    [now injection Hrun as _ <- _|].
  destruct (store fopts _ _) as [vm2 err] eqn:Es2.
  cbn [var_map notified set_configs set_var_map] in Es2.
  pose proof (store_unsupplied _ _ _ _ _ _ _ Es2 (Hfile _ _ _ Efs Ep) Hx1)
    as Hx2.
  destruct err as [e|]; [now injection Hrun as _ <- _|].
  eapply Hd; [|exact Hrun]. exact Hx2.
Qed.

Lemma run_keeps_domain fs argv g r g' t k :
  parse_args fs argv g = (r, g', t) ->
  is_Some (entries (var_map g) !! k) -> is_Some (entries (var_map g') !! k).
Proof.
  rewrite ParseArgs_unfold. cbv zeta. intros Hrun Hx.
  destruct (parse_command_line _ _) as [e|opts];
    [now injection Hrun as _ <- _|].
  destruct (store opts _ _) as [vm1 err] eqn:Es.
  pose proof (store_domain _ _ _ _ _ _ Es Hx) as Hx1.
  destruct err as [e|]; [now injection Hrun as _ <- _|].
  rewrite ParseConfigFile_run in Hrun.
  assert (Hd : forall g2 tf,
            is_Some (entries (var_map g2) !! k) ->
            (let '(r3, g3, td) :=
               display KOVRI_VERSION GetFullPath (drawn_port g) (var_map g2) g2
             in (r3, g3, (tf ++ td)%list)) = (r, g', t) ->
            is_Some (entries (var_map g') !! k)).
  { intros g2 tf Hg2.
    destruct (display _ _ _ _ _) as [[r3 g3] td] eqn:Ed.
    apply display_state in Ed as ->. now intros [= _ <- _]. }
  destruct (fs _) as [lines|]; [|eapply Hd; [|exact Hrun]; exact Hx1].
  destruct (parse_config_file lines _) as [e|fopts];
    [now injection Hrun as _ <- _|].
  destruct (store fopts _ _) as [vm2 err] eqn:Es2.
  cbn [var_map notified set_configs set_var_map] in Es2.
  pose proof (store_domain _ _ _ _ _ _ Es2 Hx1) as Hx2.
  destruct err as [e|]; [now injection Hrun as _ <- _|].
  eapply Hd; [|exact Hrun]. exact Hx2.
Qed.

(** X9: once [var_map] has an entry for [help], every later run of
    [ParseArgs] keeps it, and a run that returns returns [false] after
    printing the description [kovri] last. *)
Theorem help_in_the_map_stops_every_run fs argv g r g' t :
  parse_args fs argv g = (r, g', t) ->
  count (var_map g) "help" = true ->
  count (var_map g') "help" = true
  /\ (forall b, r = Returned b ->
        b = false
        /\ exists tf,
            t = (tf ++ [cout_description (kovri KOVRI_VERSION);
                        cout_text nl])%list).
Proof.
  intros Hrun Hh.
  assert (Hh' : count (var_map g') "help" = true).
  { unfold count in *.
    destruct (entries (var_map g) !! "help") eqn:E; [|discriminate].
    destruct (run_keeps_domain _ _ _ _ _ _ "help" Hrun) as [y ->];
      [rewrite E; eauto|reflexivity]. }
  split; [assumption|]. intros b ->.
  apply ParseArgs_returned in Hrun
    as (opts & vm1 & tf & td & _ & _ & _ & Hd & ->).
  rewrite display_help in Hd by assumption. injection Hd as <- <-.
  eauto.
Qed.

(** *** Positional arguments and aliases *)

(** X10: tokens of the command line that do not start with a dash and
    belong to no option are ignored: the run is the one of the empty
    command line, whatever the program name is. *)
Theorem positional_arguments_are_ignored fs prog prog' toks g :
  Forall (fun tok => plain tok = true) toks ->
  parse_args fs (prog :: toks) g = parse_args fs [prog'] g.
Proof.
  intros Hp. rewrite !ParseArgs_unfold. cbv zeta.
  unfold parse_command_line. cbn [tail].
  rewrite run_loop_plain by (assumption || lia).
  cbn [length run_loop]. now rewrite store_positional.
Qed.

(** X11: for every option of the registry that declares a short name and
    takes a value, the short form and the long form, followed by a value
    that does not start with a dash, are parsed to one option under the
    long name. *)
Theorem short_alias_is_the_long_name port d prog v :
  In d (options (cli port)) ->
  is_empty (m_short_name d) = false ->
  min_tokens (semantic d) = 1%nat ->
  plain v = true ->
  parse_command_line [prog; m_short_name d; v] (cli port)
  = ok [{| string_key := m_long_name d; value := [v];
           original_tokens := [m_short_name d; v]; unregistered := false |}]
  /\ parse_command_line [prog; "--" +:+ m_long_name d; v] (cli port)
     = ok [{| string_key := m_long_name d; value := [v];
              original_tokens := ["--" +:+ m_long_name d; v];
              unregistered := false |}].
Proof.
  intros Hin Hs Hm Hp.
  registry_cases Hin; try discriminate Hs; try discriminate Hm;
    match goal with
    | |- parse_command_line [_; m_short_name ?d; _] _ = _ /\ _ =>
        split;
        [exact (parse_option_with_value (cli port) prog (m_short_name d)
                  {| string_key := m_short_name d; value := [];
                     original_tokens := [m_short_name d];
                     unregistered := false |}
                  d v eq_refl eq_refl eq_refl eq_refl eq_refl Hp)
        |exact (parse_option_with_value (cli port) prog
                  ("--" +:+ m_long_name d)
                  {| string_key := m_long_name d; value := [];
                     original_tokens := ["--" +:+ m_long_name d];
                     unregistered := false |}
                  d v eq_refl eq_refl eq_refl eq_refl eq_refl Hp)]
    end.
Qed.

Lemma registry_names_differ port :
  NoDup (List.filter (fun s => negb (is_empty s))
           (flat_map names_of (options (cli port)))).
Proof.
  cbv -[int_of_size_t].
  apply NoDup_ListNoDup.
  repeat (constructor; [cbv; intuition discriminate|]). constructor.
Qed.

(** X12: the long and short names of the registry are pairwise different:
    the exact lookup of a name that is not empty throws no
    [ambiguous_option], and finds the description that has this name. *)
Theorem exact_lookup_is_unambiguous port name :
  is_empty name = false ->
  exists r,
    find_nothrow (cli port) name false = ok r
    /\ forall d, In d (options (cli port)) ->
                 m_long_name d = name \/ m_short_name d = name ->
                 r = Some d.
Proof.
  intros Hne.
  destruct (find_nothrow_exact (cli port) name (registry_names_differ port) Hne)
    as (r & Hr & Hu).
  exists r. split; [exact Hr|].
  intros d Hd Hk. apply Hu; [exact Hd|].
  destruct (registry_entry GetFullPath port d Hd) as (_ & _ & Hl & _).
  unfold matches_exactly, match_option. rewrite Hl.
  destruct Hk as [Hk | Hk]; rewrite Hk, String.eqb_refl.
  - reflexivity.
  - now destruct (String.eqb (m_long_name d) name).
Qed.

(** *** The random draw, the output of a run that proceeds *)

Lemma ParseConfigFile_rand_calls fs path desc g r g' t :
  ParseConfigFile fs path desc g = (r, g', t) -> rand_calls g' = rand_calls g.
Proof.
  rewrite ParseConfigFile_run.
  destruct (fs path) as [lines|]; [|now intros [= _ <- _]].
  destruct (parse_config_file lines desc) as [e|fopts];
    [now intros [= _ <- _]|].
  destruct (store fopts desc (var_map g)) as [vm2 [e|]];
    now intros [= _ <- _].
Qed.

(** X13: every run of [ParseArgs] draws from the random source once,
    however it ends. *)
Theorem every_run_draws_once fs argv g :
  rand_calls (state_of (parse_args fs argv g)) = S (rand_calls g).
Proof.
  rewrite ParseArgs_unfold. cbv zeta.
  destruct (parse_command_line _ _) as [e|opts]; [reflexivity|].
  destruct (store opts _ _) as [vm1 [e|]]; [reflexivity|].
  destruct (ParseConfigFile _ _ _ _) as [[[[]|e] g2] tf] eqn:Ef;
    apply ParseConfigFile_rand_calls in Ef; [|exact Ef].
  destruct (display _ _ _ _ _) as [[r3 g3] td] eqn:Ed.
  apply display_state in Ed as ->. exact Ef.
Qed.

Lemma display_true port vm g g' td :
  display KOVRI_VERSION GetFullPath port vm g = (Returned true, g', td) ->
  td = [].
Proof.
  unfold display, mbind, M_bind, as_string, cout_desc, cout, endl, emit,
    raise, mret, M_ret.
  destruct (count vm "help"); [discriminate|].
  destruct (count vm "help-with"); [|now intros [= _ <-]].
  destruct (m_value (get vm "help-with")); try discriminate.
  repeat match goal with |- context [if ?c then _ else _] => destruct c end;
    discriminate.
Qed.

(** X14: a run of [ParseArgs] that returns [true] opens one file and
    prints nothing but the report of a file that could not be opened. *)
Theorem proceeding_run_prints_only_the_report fs argv g g' t :
  parse_args fs argv g = (Returned true, g', t) ->
  exists path,
    (fs path = None
     /\ t = [ifstream_open path false;
             cout_text ("Could not open " +:+ path +:+ "!" +:+ nl)])
    \/ (is_Some (fs path) /\ t = [ifstream_open path true]).
Proof.
  intros Hrun.
  apply ParseArgs_returned in Hrun
    as (opts & vm1 & tf & td & _ & _ & Hf & Hd & ->).
  apply display_true in Hd as ->. rewrite app_nil_r.
  eexists.
  apply ParseConfigFile_returned in Hf
    as [(Hfs & _ & ->)|(lines & fopts & vm2 & Hfs & _ & _ & _ & ->)].
  - left. split; [exact Hfs|reflexivity].
  - right. split; [rewrite Hfs; eauto|reflexivity].
Qed.

(** X15: when an exception leaves [ParseConfigFile], the file had been
    opened, nothing was printed and [notify] was not reached: the globals
    [kovri_config] and [tunnels_config] are unchanged; [var_map] is
    unchanged when the parser threw, and is the map that [store] left when
    [store] threw. *)
Theorem ParseConfigFile_throw_skips_notify fs path desc g e g' t :
  ParseConfigFile fs path desc g = (Threw e, g', t) ->
  exists lines,
    fs path = Some lines
    /\ t = [ifstream_open path true]
    /\ kovri_config g' = kovri_config g
    /\ tunnels_config g' = tunnels_config g
    /\ (parse_config_file lines desc = throw e /\ g' = g
        \/ exists fopts,
             parse_config_file lines desc = ok fopts
             /\ store fopts desc (var_map g) = (var_map g', Some e)).
Proof.
  rewrite ParseConfigFile_run.
  destruct (fs path) as [lines|]; [|discriminate].
  intros H. exists lines. split; [reflexivity|].
  destruct (parse_config_file lines desc) as [e'|fopts].
  - injection H as -> <- <-. auto 10.
  - destruct (store fopts desc (var_map g)) as [vm2 [e'|]] eqn:Es;
      [|discriminate].
    injection H as -> <- <-. repeat split; try reflexivity.
    right. exists fopts. split; [reflexivity|exact Es].
Qed.

(** *** Options without their value *)

Lemma registry_missing_value port d prog :
  In d (options (cli port)) -> m_long_name d <> "help" ->
  parse_command_line [prog; "--" +:+ m_long_name d] (cli port)
  = throw (invalid_command_line_syntax missing_parameter
             ("--" +:+ m_long_name d)).
Proof.
  intros Hin Hne.
  registry_cases Hin; try (exfalso; apply Hne; reflexivity); reflexivity.
Qed.

(** X16: every option of the registry but [help] needs a value: given as
    the last token in its long form, [ParseArgs] ends in
    [invalid_command_line_syntax] for a missing parameter, before
    anything is stored, opened or printed. *)
Theorem every_setting_needs_a_value fs prog d g :
  In d (options (cli (drawn_port g))) -> m_long_name d <> "help" ->
  parse_args fs [prog; "--" +:+ m_long_name d] g
  = (Threw (invalid_command_line_syntax missing_parameter
              ("--" +:+ m_long_name d)), drawn g, []).
Proof.
  intros Hin Hne. rewrite ParseArgs_unfold. cbv zeta.
  now rewrite (registry_missing_value _ _ prog Hin Hne).
Qed.

End Further.

(** ** Further runs on concrete inputs *)

Lemma resolved_values_have_declared_type_witness :
  run_port_config
  = (Returned true, state_of run_port_config, snd run_port_config)
  /\ parse_command_line argv_port_config example_cli
     = ok (example_parse argv_port_config)
  /\ In (example_description "port") (options example_cli)
  /\ resolved (var_map (state_of run_port_config))
       (m_long_name (example_description "port"))
     = Some (any_int 1000, false)
  /\ value_fits (semantic (example_description "port")) (any_int 1000).
Proof.
  assert (H1 : run_port_config
               = (Returned true, state_of run_port_config,
                  snd run_port_config)) by run_it.
  assert (H2 : parse_command_line argv_port_config example_cli
               = ok (example_parse argv_port_config)) by run_it.
  assert (H3 : In (example_description "port") (options example_cli))
    by (vm_compute; do 3 right; left; reflexivity).
  assert (H4 : resolved (var_map (state_of run_port_config))
                 (m_long_name (example_description "port"))
               = Some (any_int 1000, false)) by run_it.
  refine (conj H1 (conj H2 (conj H3 (conj H4 _)))).
  exact (resolved_values_have_declared_type _ _ _ _ _ _ _ _ _ _ _ _
           H1 H2 H3 H4).
Defined.

Lemma entries_only_for_registry_keys_witness :
  run_port_config
  = (Returned true, state_of run_port_config, snd run_port_config)
  /\ parse_command_line argv_port_config example_cli
     = ok (example_parse argv_port_config)
  /\ is_Some (entries (var_map (state_of run_port_config)) !! "host")
  /\ In "host" (map m_long_name (options example_cli)).
Proof.
  assert (H1 : run_port_config
               = (Returned true, state_of run_port_config,
                  snd run_port_config)) by run_it.
  assert (H2 : parse_command_line argv_port_config example_cli
               = ok (example_parse argv_port_config)) by run_it.
  assert (H3 : is_Some (entries (var_map (state_of run_port_config))
                          !! "host")) by (vm_compute; eauto).
  refine (conj H1 (conj H2 (conj H3 _))).
  exact (entries_only_for_registry_keys _ _ _ _ _ _ _ _ _ _ H1 H2 H3).
Defined.

Lemma globals_hold_resolved_paths_witness :
  run_port_config
  = (Returned true, state_of run_port_config, snd run_port_config)
  /\ parse_command_line argv_port_config example_cli
     = ok (example_parse argv_port_config)
  /\ exists pc pt,
       resolved (var_map (state_of run_port_config)) "config"
       = Some (any_string (kovri_config (state_of run_port_config)), pc)
       /\ resolved (var_map (state_of run_port_config)) "tunnelscfg"
          = Some (any_string (tunnels_config (state_of run_port_config)), pt).
Proof.
  assert (H1 : run_port_config
               = (Returned true, state_of run_port_config,
                  snd run_port_config)) by run_it.
  assert (H2 : parse_command_line argv_port_config example_cli
               = ok (example_parse argv_port_config)) by run_it.
  refine (conj H1 (conj H2 _)).
  exact (globals_hold_resolved_paths _ _ _ _ _ _ _ _ _ H1 H2).
Defined.

Lemma proceeds_exactly_without_help_flags_witness :
  parse_command_line argv_none example_cli = ok (example_parse argv_none)
  /\ store (example_parse argv_none) example_cli empty_map
     = (fst (store (example_parse argv_none) example_cli empty_map), None)
  /\ ParseConfigFile no_files
       (cli_path example_full_path (example_parse argv_none))
       (config_options example_full_path (example_rand 0 9111 30777))
       (notified
          (set_var_map (drawn initial_globals)
             (fst (store (example_parse argv_none) example_cli empty_map))))
     = (Returned tt, state_of run_none, snd run_none)
  /\ (run_none = (Returned true, state_of run_none, snd run_none)
      <-> supplied (example_parse argv_none) "help" = None
          /\ supplied (example_parse argv_none) "help-with" = None).
Proof.
  assert (H1 : parse_command_line argv_none example_cli
               = ok (example_parse argv_none)) by run_it.
  assert (H2 : store (example_parse argv_none) example_cli empty_map
               = (fst (store (example_parse argv_none) example_cli
                         empty_map), None)) by run_it.
  assert (H3 : ParseConfigFile no_files
                 (cli_path example_full_path (example_parse argv_none))
                 (config_options example_full_path
                    (example_rand 0 9111 30777))
                 (notified
                    (set_var_map (drawn initial_globals)
                       (fst (store (example_parse argv_none) example_cli
                               empty_map))))
               = (Returned tt, state_of run_none, snd run_none)) by run_it.
  refine (conj H1 (conj H2 (conj H3 _))).
  exact (proceeds_exactly_without_help_flags example_version _ _ _ _ _ _ _ _
           H1 H2 H3).
Defined.

Lemma config_file_error_propagates_witness :
  parse_command_line argv_config example_cli = ok (example_parse argv_config)
  /\ store (example_parse argv_config) example_cli empty_map
     = (fst (store (example_parse argv_config) example_cli empty_map), None)
  /\ file_pass broken_files
       (notified
          (set_var_map (drawn initial_globals)
             (fst (store (example_parse argv_config) example_cli empty_map))))
     = (Threw (invalid_option_value "port" "notanumber"),
        state_of run_broken, snd run_broken)
  /\ run_broken
     = (Threw (invalid_option_value "port" "notanumber"),
        state_of run_broken, snd run_broken)
  /\ snd run_broken = [ifstream_open "/etc/kovri.conf" true].
Proof.
  assert (H1 : parse_command_line argv_config example_cli
               = ok (example_parse argv_config)) by run_it.
  assert (H2 : store (example_parse argv_config) example_cli empty_map
               = (fst (store (example_parse argv_config) example_cli
                         empty_map), None)) by run_it.
  assert (H3 : file_pass broken_files
                 (notified
                    (set_var_map (drawn initial_globals)
                       (fst (store (example_parse argv_config) example_cli
                               empty_map))))
               = (Threw (invalid_option_value "port" "notanumber"),
                  state_of run_broken, snd run_broken)) by run_it.
  refine (conj H1 (conj H2 (conj H3 _))).
  exact (config_file_error_propagates example_version example_full_path
           example_rand broken_files argv_config initial_globals
           _ _ _ _ _ H1 H2 H3).
Defined.

Lemma ParseConfigFile_keeps_final_values_witness :
  file_pass example_files (state_of run_port_1000)
  = (Returned tt,
     snd (fst (file_pass example_files (state_of run_port_1000))),
     [ifstream_open "/etc/kovri.conf" true])
  /\ "port" ∈ m_final (var_map (state_of run_port_1000))
  /\ entries (var_map (state_of run_port_1000)) !! "port"
     = Some (get (var_map (state_of run_port_1000)) "port")
  /\ entries
       (var_map (snd (fst (file_pass example_files (state_of run_port_1000)))))
       !! "port"
     = Some (get (var_map (state_of run_port_1000)) "port")
  /\ "port"
     ∈ m_final
         (var_map
            (snd (fst (file_pass example_files (state_of run_port_1000))))).
Proof.
  assert (H1 : file_pass example_files (state_of run_port_1000)
               = (Returned tt,
                  snd (fst (file_pass example_files (state_of run_port_1000))),
                  [ifstream_open "/etc/kovri.conf" true])) by run_it.
  assert (H2 : "port" ∈ m_final (var_map (state_of run_port_1000)))
    by (eapply (bool_decide_unpack _); run_it).
  assert (H3 : entries (var_map (state_of run_port_1000)) !! "port"
               = Some (get (var_map (state_of run_port_1000)) "port"))
    by run_it.
  refine (conj H1 (conj H2 (conj H3 _))).
  exact (ParseConfigFile_keeps_final_values _ _ _ _ _ _ _ _ _ H1 H2 H3).
Defined.

Lemma ParseConfigFile_leaves_help_flags_witness :
  file_pass example_files (state_of run_help)
  = (Returned tt, snd (fst (file_pass example_files (state_of run_help))),
     [ifstream_open "/etc/kovri.conf" true])
  /\ ("help" = "help" \/ "help" = "help-with")
  /\ entries (var_map (snd (fst (file_pass example_files (state_of run_help)))))
       !! "help"
     = entries (var_map (state_of run_help)) !! "help".
Proof.
  assert (H1 : file_pass example_files (state_of run_help)
               = (Returned tt,
                  snd (fst (file_pass example_files (state_of run_help))),
                  [ifstream_open "/etc/kovri.conf" true])) by run_it.
  refine (conj H1 (conj (or_introl eq_refl) _)).
  exact (ParseConfigFile_leaves_help_flags _ _ _ _ _ _ _ _ _ H1
           (or_introl eq_refl)).
Defined.

Lemma unsupplied_entry_is_kept_witness :
  ParseArgs example_version example_full_path example_rand no_files
    argv_none (state_of run_none)
  = (Returned true, state_of run_again, snd run_again)
  /\ entries (var_map (state_of run_none)) !! "port"
     = Some (get (var_map (state_of run_none)) "port")
  /\ (forall opts,
        parse_command_line argv_none
          (cli_options example_full_path
             (example_rand (rand_calls (state_of run_none)) 9111 30777))
        = ok opts ->
        supplied opts "port" = None)
  /\ (forall path lines fopts,
        no_files path = Some lines ->
        parse_config_file lines
          (config_options example_full_path
             (example_rand (rand_calls (state_of run_none)) 9111 30777))
        = ok fopts ->
        supplied fopts "port" = None)
  /\ entries (var_map (state_of run_again)) !! "port"
     = Some (get (var_map (state_of run_none)) "port").
Proof.
  assert (H1 : ParseArgs example_version example_full_path example_rand no_files
    argv_none (state_of run_none)
  = (Returned true, state_of run_again, snd run_again))
    by run_it.
  assert (H2 : entries (var_map (state_of run_none)) !! "port"
               = Some (get (var_map (state_of run_none)) "port")) by run_it.
  assert (H3 : forall opts,
             parse_command_line argv_none
               (cli_options example_full_path
                  (example_rand (rand_calls (state_of run_none)) 9111 30777))
             = ok opts ->
             supplied opts "port" = None).
  { intros opts H. vm_compute in H. injection H as <-. reflexivity. }
  assert (H4 : forall path lines fopts,
             no_files path = Some lines ->
             parse_config_file lines
               (config_options example_full_path
                  (example_rand (rand_calls (state_of run_none)) 9111 30777))
             = ok fopts ->
             supplied fopts "port" = None).
  { intros path lines fopts H. discriminate H. }
  refine (conj H1 (conj H2 (conj H3 (conj H4 _)))).
  exact (unsupplied_entry_is_kept example_version example_full_path
           example_rand no_files argv_none (state_of run_none)
           _ _ _ "port" _ H1 H2 H3 H4).
Defined.

Lemma help_in_the_map_stops_every_run_witness :
  run_after_help
  = (Returned false, state_of run_after_help, snd run_after_help)
  /\ count (var_map (state_of run_help)) "help" = true
  /\ count (var_map (state_of run_after_help)) "help" = true
  /\ (forall b, Returned false = Returned b ->
        b = false
        /\ exists tf,
            snd run_after_help
            = (tf ++ [cout_description (kovri example_version);
                      cout_text nl])%list).
Proof.
  assert (H1 : run_after_help
               = (Returned false, state_of run_after_help,
                  snd run_after_help)) by run_it.
  assert (H2 : count (var_map (state_of run_help)) "help" = true) by run_it.
  refine (conj H1 (conj H2 _)).
  exact (help_in_the_map_stops_every_run example_version example_full_path
           example_rand no_files argv_none (state_of run_help)
           _ _ _ H1 H2).
Defined.

Lemma positional_arguments_are_ignored_witness :
  Forall (fun tok => plain tok = true) ["start"; "now"]
  /\ example_run no_files argv_positional initial_globals
     = example_run no_files argv_none initial_globals.
Proof.
  assert (H1 : Forall (fun tok => plain tok = true) ["start"; "now"])
    by (repeat constructor).
  refine (conj H1 _).
  exact (positional_arguments_are_ignored example_version example_full_path
           example_rand no_files "kovri" "kovri" _ initial_globals H1).
Defined.

Lemma short_alias_is_the_long_name_witness :
  In (example_description "port") (options example_cli)
  /\ is_empty (m_short_name (example_description "port")) = false
  /\ min_tokens (semantic (example_description "port")) = 1%nat
  /\ plain "1000" = true
  /\ parse_command_line ["kovri"; "-p"; "1000"] example_cli
     = ok [{| string_key := "port"; value := ["1000"];
              original_tokens := ["-p"; "1000"]; unregistered := false |}]
  /\ parse_command_line ["kovri"; "--port"; "1000"] example_cli
     = ok [{| string_key := "port"; value := ["1000"];
              original_tokens := ["--port"; "1000"]; unregistered := false |}].
Proof.
  assert (H1 : In (example_description "port") (options example_cli))
    by (vm_compute; do 3 right; left; reflexivity).
  assert (H2 : is_empty (m_short_name (example_description "port")) = false)
    by reflexivity.
  assert (H3 : min_tokens (semantic (example_description "port")) = 1%nat)
    by reflexivity.
  assert (H4 : plain "1000" = true) by reflexivity.
  refine (conj H1 (conj H2 (conj H3 (conj H4 _)))).
  exact (short_alias_is_the_long_name _ _ _ "kovri" _ H1 H2 H3 H4).
Defined.

Lemma exact_lookup_is_unambiguous_witness :
  is_empty "-p" = false
  /\ exists r,
       find_nothrow example_cli "-p" false = ok r
       /\ forall d, In d (options example_cli) ->
                    m_long_name d = "-p" \/ m_short_name d = "-p" ->
                    r = Some d.
Proof.
  assert (H1 : is_empty "-p" = false) by reflexivity.
  refine (conj H1 _).
  exact (exact_lookup_is_unambiguous example_version example_full_path _ _ H1).
Defined.

Lemma proceeding_run_prints_only_the_report_witness :
  run_none = (Returned true, state_of run_none, snd run_none)
  /\ exists path,
       (no_files path = None
        /\ snd run_none
           = [ifstream_open path false;
              cout_text ("Could not open " +:+ path +:+ "!" +:+ nl)])
       \/ (is_Some (no_files path)
           /\ snd run_none = [ifstream_open path true]).
Proof.
  assert (H1 : run_none = (Returned true, state_of run_none, snd run_none))
    by run_it.
  refine (conj H1 _).
  exact (proceeding_run_prints_only_the_report example_version
           example_full_path example_rand no_files argv_none initial_globals
           _ _ H1).
Defined.

Lemma ParseConfigFile_throw_skips_notify_witness :
  file_pass broken_files initial_globals
  = (Threw (invalid_option_value "port" "notanumber"),
     snd (fst (file_pass broken_files initial_globals)),
     snd (file_pass broken_files initial_globals))
  /\ exists lines,
       broken_files "/etc/kovri.conf" = Some lines
       /\ snd (file_pass broken_files initial_globals)
          = [ifstream_open "/etc/kovri.conf" true]
       /\ kovri_config (snd (fst (file_pass broken_files initial_globals)))
          = kovri_config initial_globals
       /\ tunnels_config (snd (fst (file_pass broken_files initial_globals)))
          = tunnels_config initial_globals
       /\ (parse_config_file lines
             (config_options example_full_path (example_rand 0 9111 30777))
           = throw (invalid_option_value "port" "notanumber")
           /\ snd (fst (file_pass broken_files initial_globals))
              = initial_globals
           \/ exists fopts,
                parse_config_file lines
                  (config_options example_full_path
                     (example_rand 0 9111 30777))
                = ok fopts
                /\ store fopts
                     (config_options example_full_path
                        (example_rand 0 9111 30777))
                     (var_map initial_globals)
                   = (var_map
                        (snd (fst (file_pass broken_files initial_globals))),
                      Some (invalid_option_value "port" "notanumber"))).
Proof.
  assert (H1 : file_pass broken_files initial_globals
               = (Threw (invalid_option_value "port" "notanumber"),
                  snd (fst (file_pass broken_files initial_globals)),
                  snd (file_pass broken_files initial_globals))) by run_it.
  refine (conj H1 _).
  exact (ParseConfigFile_throw_skips_notify _ _ _ _ _ _ _ H1).
Defined.

Lemma every_setting_needs_a_value_witness :
  In (example_description "daemon") (options example_cli)
  /\ m_long_name (example_description "daemon") <> "help"
  /\ example_run no_files argv_daemon initial_globals
     = (Threw (invalid_command_line_syntax missing_parameter "--daemon"),
        drawn initial_globals, []).
Proof.
  assert (H1 : In (example_description "daemon") (options example_cli))
    by (vm_compute; do 5 right; left; reflexivity).
  assert (H2 : m_long_name (example_description "daemon") <> "help")
    by discriminate.
  refine (conj H1 (conj H2 _)).
  exact (every_setting_needs_a_value example_version example_full_path
           example_rand no_files "kovri" _ initial_globals H1 H2).
Defined.
